(** * Hierholzer's algorithm for Euler tours (hierholzer.py)

    A shallow embedding of [hierholzer_tour] and [hierholzer] and the
    verification of the tour they build.

    The adjacency store of the Python program is a dict from vertex
    labels to lists of vertex labels.  In the first model it is a [gmap]
    that is threaded through a state and exception monad: the working
    copy that [hierholzer] makes and consumes.  The second model keeps
    the objects of the program in a store with references, so that the
    Graph and its deep copy are different objects of one store; it is
    related to the first by a simulation.

    The two loops are defined by recursion on a budget that is computed
    from the store; the budget is proved never to run out. *)

From stdpp Require Import gmap strings list fin_maps.

(** * The model *)

(** ** Data model *)

(** The Python exceptions the program can raise: [d[k]] on a missing key,
    [l.pop()] on an empty list (and [l[0]] on an empty list), and
    [l.remove(x)] when [x] does not occur in [l]; [TypeError] stands for
    the use of an object that is not of the expected kind. *)
Inductive exn : Type :=
  | KeyError
  | IndexError
  | ValueError
  | TypeError.

(** The outcome of a run.  [OutOfFuel] only exists because the two loops
    are defined by recursion on a step budget; it is proved unreachable. *)
Inductive outcome (A : Type) : Type :=
  | Ok (a : A)
  | Raise (e : exn)
  | OutOfFuel.

Arguments Ok {A} a.
Arguments Raise {A} e.
Arguments OutOfFuel {A}.

(** Modelled from the spec: the class [Graph] of graph.py, which is not
    part of the sources.  The program only reads its two attributes
    [vertices] (a list of labels) and [adj_list] (a dict from a label to
    the list of its neighbours). *)
Record Graph : Type := mkGraph {
  vertices : list string;
  adj_list : gmap string (list string)
}.

(** ** The state and exception monad *)

Definition M (A : Type) : Type :=
  gmap string (list string) → outcome (A * gmap string (list string)).

#[global] Instance M_ret : MRet M := λ A a adj, Ok (a, adj).

#[global] Instance M_bind : MBind M := λ A B f m adj,
  match m adj with
  | Ok (a, adj') => f a adj'
  | Raise e => Raise e
  | OutOfFuel => OutOfFuel
  end.

Definition raise {A} (e : exn) : M A := λ _, Raise e.

Definition out_of_fuel {A} : M A := λ _, OutOfFuel.

(** ** List primitives of Python *)

(** [l.pop()]: the last element and the list without it. *)
Definition list_pop {A} (l : list A) : option (A * list A) :=
  match reverse l with
  | [] => None
  | x :: r => Some (x, reverse r)
  end.

(** [l.remove(x)]: the list without the first occurrence of [x], or
    nothing when [x] does not occur. *)
Fixpoint list_remove `{EqDecision A} (x : A) (l : list A) : option (list A) :=
  match l with
  | [] => None
  | y :: l' =>
      if decide (y = x) then Some l'
      else match list_remove x l' with
           | Some r => Some (y :: r)
           | None => None
           end
  end.

(** [l.insert(i, x)]: an index past the end appends. *)
Definition py_insert {A} (i : nat) (x : A) (l : list A) : list A :=
  take i l ++ x :: drop i l.

(** [enumerate(l)] *)
Definition enumerate {A} (l : list A) : list (nat * A) :=
  zip (seq 0 (length l)) l.

(** ** Operations on the adjacency store *)

(** The sum of the lengths of all adjacency lists: twice the number of
    unused edges of a symmetric store. *)
Definition adj_size (adj : gmap string (list string)) : nat :=
  map_fold (λ _ l n, length l + n) 0 adj.

Definition get_size : M nat := λ adj, Ok (adj_size adj, adj).

(** [adj_list[k]] *)
Definition adj_get (k : string) : M (list string) :=
  λ adj,
    match adj !! k with
    | Some l => Ok (l, adj)
    | None => Raise KeyError
    end.

(** The list object stored under [k] is replaced by its mutated value. *)
Definition adj_put (k : string) (l : list string) : M unit :=
  λ adj, Ok (tt, <[k := l]> adj).

(** [adj_list[k].pop()] *)
Definition adj_pop (k : string) : M string :=
  l ← adj_get k;
  match list_pop l with
  | Some (x, l') => adj_put k l' ;; mret x
  | None => raise IndexError
  end.

(** [adj_list[k].remove(x)] *)
Definition adj_remove (k x : string) : M unit :=
  l ← adj_get k;
  match list_remove x l with
  | Some l' => adj_put k l'
  | None => raise ValueError
  end.

(** [len(adj_list[k])] *)
Definition adj_len (k : string) : M nat :=
  l ← adj_get k; mret (length l).

(** ** hierholzer_tour *)

(** One traversal step, lines 28-29 and 33-34: leave [cur] by the last
    entry of its list, and remove the opposite entry. *)
Definition tour_step (cur : string) : M string :=
  nxt ← adj_pop cur;
  adj_remove nxt cur ;;
  mret nxt.

(** The while loop of lines 31-35. *)
Fixpoint tour_loop (fuel : nat) (start_vertex next_vertex : string)
    (tour : list string) : M (list string) :=
  if decide (next_vertex = start_vertex) then mret tour
  else
    match fuel with
    | 0 => out_of_fuel
    | S fuel' =>
        let current_vertex := next_vertex in
        next_vertex ← tour_step current_vertex;
        tour_loop fuel' start_vertex next_vertex (tour ++ [next_vertex])
    end.

(** The budget of the loop is computed from the store: every iteration
    removes two entries from it. *)
Definition hierholzer_tour (start_vertex : string) : M (list string) :=
  next_vertex ← tour_step start_vertex;
  fuel ← get_size;
  tour_loop (S fuel) start_vertex next_vertex [start_vertex; next_vertex].

(** ** hierholzer *)

(** The insertion loop of lines 55-61. *)
Definition splice (v_index : nat) (v_tour tour : list string) : list string :=
  fold_left
    (λ tour '(u_index, u),
       if decide (u_index = length v_tour - 1) then tour
       else py_insert (v_index + 1) u tour)
    (enumerate (reverse v_tour)) tour.

(** The for loop of lines 48-61.  The list iterator of Python reads
    [tour[v_index]] from the list as it is at that moment, and stops when
    the index has reached its current length. *)
Fixpoint scan (fuel : nat) (v_index : nat) (tour : list string)
    : M (list string) :=
  match tour !! v_index with
  | None => mret tour
  | Some v =>
      match fuel with
      | 0 => out_of_fuel
      | S fuel' =>
          n ← adj_len v;
          if decide (n ≠ 0) then
            v_tour ← hierholzer_tour v;
            scan fuel' (S v_index) (splice v_index v_tour tour)
          else scan fuel' (S v_index) tour
      end
  end.

(** [copy.deepcopy] of a dict of lists of strings yields an equal value. *)
Definition deepcopy (adj : gmap string (list string))
    : gmap string (list string) := adj.

(** The body of [hierholzer] after the copy, with the store it leaves.
    [vertices[0]] raises [IndexError] on an empty list.  The two calls of
    [print] only write the tours found to the standard output and are
    left out. *)
Definition hierholzer_body (vs : list string) : M (list string) :=
  match vs !! 0 with
  | None => raise IndexError
  | Some v0 =>
      tour ← hierholzer_tour v0;
      fuel ← get_size;
      scan (S (length tour + fuel)) 0 tour
  end.

Definition hierholzer_run (g : Graph)
    : outcome (list string * gmap string (list string)) :=
  hierholzer_body (vertices g) (deepcopy (adj_list g)).

Definition hierholzer (g : Graph) : outcome (list string) :=
  match hierholzer_run g with
  | Ok (tour, _) => Ok tour
  | Raise e => Raise e
  | OutOfFuel => OutOfFuel
  end.

(** ** The program on the object store

    [hierholzer] mutates list objects in place.  To state what happens to
    the Graph it is given, the program is modelled a second time on a
    store of objects with references: a dict object maps keys to
    references of list objects, and [copy.deepcopy] allocates new ones. *)

Inductive obj : Type :=
  | OList (l : list string)
  | ODict (d : gmap string positive).

(** A Graph object: its attributes hold references. *)
Record GraphRef : Type := mkGraphRef {
  ref_vertices : positive;
  ref_adj_list : positive
}.

(** State and exceptions; the store is kept when an exception is raised. *)
Definition HM (A : Type) : Type :=
  gmap positive obj → outcome A * gmap positive obj.

#[global] Instance HM_ret : MRet HM := λ A a h, (Ok a, h).

#[global] Instance HM_bind : MBind HM := λ A B f m h,
  match m h with
  | (Ok a, h') => f a h'
  | (Raise e, h') => (Raise e, h')
  | (OutOfFuel, h') => (OutOfFuel, h')
  end.

Definition h_raise {A} (e : exn) : HM A := λ h, (Raise e, h).

Definition h_out_of_fuel {A} : HM A := λ h, (OutOfFuel, h).

Definition list_at (h : gmap positive obj) (l : positive)
    : option (list string) :=
  match h !! l with
  | Some (OList xs) => Some xs
  | _ => None
  end.

Definition dict_at (h : gmap positive obj) (d : positive)
    : option (gmap string positive) :=
  match h !! d with
  | Some (ODict m) => Some m
  | _ => None
  end.

Definition h_dict (d : positive) : HM (gmap string positive) :=
  λ h, match dict_at h d with
       | Some m => (Ok m, h)
       | None => (Raise TypeError, h)
       end.

Definition h_list (l : positive) : HM (list string) :=
  λ h, match list_at h l with
       | Some xs => (Ok xs, h)
       | None => (Raise TypeError, h)
       end.

Definition h_store (l : positive) (o : obj) : HM unit :=
  λ h, (Ok tt, <[l := o]> h).

Definition h_alloc (o : obj) : HM positive :=
  λ h, let l := fresh (dom h) in (Ok l, <[l := o]> h).

(** [d[k]] *)
Definition h_getitem (d : positive) (k : string) : HM positive :=
  m ← h_dict d;
  match m !! k with
  | Some l => mret l
  | None => h_raise KeyError
  end.

(** [l.pop()] *)
Definition h_pop (l : positive) : HM string :=
  xs ← h_list l;
  match list_pop xs with
  | Some (x, xs') => h_store l (OList xs') ;; mret x
  | None => h_raise IndexError
  end.

(** [l.remove(x)] *)
Definition h_remove (l : positive) (x : string) : HM unit :=
  xs ← h_list l;
  match list_remove x xs with
  | Some xs' => h_store l (OList xs')
  | None => h_raise ValueError
  end.

(** [len(l)] *)
Definition h_len (l : positive) : HM nat :=
  xs ← h_list l; mret (length xs).

(** The adjacency the dict object [d] stands for. *)
Definition abs_adj (h : gmap positive obj) (m : gmap string positive)
    : gmap string (list string) :=
  omap (list_at h) m.

Definition h_read {A} (f : gmap positive obj → A) : HM A :=
  λ h, (Ok (f h), h).

Definition h_get_size (d : positive) : HM nat :=
  m ← h_dict d; h_read (λ h, adj_size (abs_adj h m)).

(** [adj_list[k].pop()], [adj_list[k].remove(x)], [len(adj_list[k])] *)
Definition h_adj_pop (d : positive) (k : string) : HM string :=
  l ← h_getitem d k; h_pop l.

Definition h_adj_remove (d : positive) (k x : string) : HM unit :=
  l ← h_getitem d k; h_remove l x.

Definition h_adj_len (d : positive) (k : string) : HM nat :=
  l ← h_getitem d k; h_len l.

Definition h_tour_step (d : positive) (cur : string) : HM string :=
  nxt ← h_adj_pop d cur;
  h_adj_remove d nxt cur ;;
  mret nxt.

Fixpoint h_tour_loop (fuel : nat) (d : positive)
    (start_vertex next_vertex : string) (tour : list string)
    : HM (list string) :=
  if decide (next_vertex = start_vertex) then mret tour
  else
    match fuel with
    | 0 => h_out_of_fuel
    | S fuel' =>
        let current_vertex := next_vertex in
        next_vertex ← h_tour_step d current_vertex;
        h_tour_loop fuel' d start_vertex next_vertex (tour ++ [next_vertex])
    end.

Definition h_hierholzer_tour (d : positive) (start_vertex : string)
    : HM (list string) :=
  next_vertex ← h_tour_step d start_vertex;
  fuel ← h_get_size d;
  h_tour_loop (S fuel) d start_vertex next_vertex [start_vertex; next_vertex].

Fixpoint h_scan (fuel : nat) (d : positive) (v_index : nat)
    (tour : list string) : HM (list string) :=
  match tour !! v_index with
  | None => mret tour
  | Some v =>
      match fuel with
      | 0 => h_out_of_fuel
      | S fuel' =>
          n ← h_adj_len d v;
          if decide (n ≠ 0) then
            v_tour ← h_hierholzer_tour d v;
            h_scan fuel' d (S v_index) (splice v_index v_tour tour)
          else h_scan fuel' d (S v_index) tour
      end
  end.

(** [copy.deepcopy] on the values of a dict of lists: a list object that
    was copied before is not copied again (the memo), a new list object
    is allocated otherwise; strings are not copied. *)
Fixpoint copy_values (kvs : list (string * positive))
    (memo : gmap positive positive) (m' : gmap string positive)
    : HM (gmap string positive) :=
  match kvs with
  | [] => mret m'
  | (k, l) :: kvs' =>
      match memo !! l with
      | Some l' => copy_values kvs' memo (<[k := l']> m')
      | None =>
          xs ← h_list l;
          l' ← h_alloc (OList xs);
          copy_values kvs' (<[l := l']> memo) (<[k := l']> m')
      end
  end.

Definition h_deepcopy (d : positive) : HM positive :=
  m ← h_dict d;
  d' ← h_alloc (ODict ∅);
  m' ← copy_values (map_to_list m) ∅ ∅;
  h_store d' (ODict m') ;;
  mret d'.

(** [hierholzer] on the store. *)
Definition h_hierholzer (g : GraphRef) : HM (list string) :=
  adj_list ← h_deepcopy (ref_adj_list g);
  vertices ← h_list (ref_vertices g);
  match vertices !! 0 with
  | None => h_raise IndexError
  | Some v0 =>
      tour ← h_hierholzer_tour adj_list v0;
      fuel ← h_get_size adj_list;
      h_scan (S (length tour + fuel)) adj_list 0 tour
  end.

(** * The vocabulary of the statements *)

(** ** Counting, walks and what a run takes out of the store *)

(** The number of occurrences of [x] in [l]. *)
Definition occ `{EqDecision A} (x : A) (l : list A) : nat :=
  length (filter (λ y, y = x) l).

(** The adjacency entry of [u]; a label that is not a key has none. *)
Definition nbrs (adj : gmap string (list string)) (u : string) : list string :=
  default [] (adj !! u).

(** The consecutive pairs of a walk. *)
Fixpoint steps (t : list string) : list (string * string) :=
  match t with
  | x :: t' =>
      match t' with
      | y :: _ => (x, y) :: steps t'
      | [] => []
      end
  | [] => []
  end.

(** The entries an edge takes out of the adjacency list of [u]: its other
    end, once for each of its ends that is [u]. *)
Definition half (u : string) (e : string * string) : list string :=
  (if decide (e.1 = u) then [e.2] else []) ++
  (if decide (e.2 = u) then [e.1] else []).

Definition used (u : string) (es : list (string * string)) : list string :=
  es ≫= half u.

(** [consumes adj adj' es]: the store [adj'] is [adj] with, for every edge
    of [es], one entry removed at each of its two ends, and nothing else
    changed. *)
Record consumes (adj adj' : gmap string (list string))
    (es : list (string * string)) : Prop := mkConsumes {
  consumes_dom : ∀ u, is_Some (adj' !! u) ↔ is_Some (adj !! u);
  consumes_nbrs : ∀ u, nbrs adj u ≡ₚ used u es ++ nbrs adj' u;
  consumes_size : adj_size adj = 2 * length es + adj_size adj';
  consumes_keys : ∀ a b, (a, b) ∈ es → is_Some (adj !! a) ∧ is_Some (adj !! b)
}.

(** ** Invariants of the store *)

(** Every edge is entered at both of its ends. *)
Definition symmetric (adj : gmap string (list string)) : Prop :=
  ∀ u v, occ v (nbrs adj u) = occ u (nbrs adj v).

(** A loop at [u] is an edge with both ends at [u]: it is entered twice
    in the list of [u]. *)
Definition loops_paired (adj : gmap string (list string)) : Prop :=
  ∀ u, Nat.Even (occ u (nbrs adj u)).

Definition even_degree (adj : gmap string (list string)) : Prop :=
  ∀ u, Nat.Even (length (nbrs adj u)).

Definition ind (P : Prop) `{Decision P} : nat := if decide P then 1 else 0.

(** The degrees in the middle of a walk from [s] that has reached [cur]:
    all even, except those of [s] and [cur] when they differ. *)
Definition walking (s cur : string) (adj : gmap string (list string)) : Prop :=
  ∀ u, Nat.Even (length (nbrs adj u) + ind (u = s) + ind (u = cur)).

(** The store between two sub-tours. *)
Record store_ok (adj : gmap string (list string)) : Prop := mkStoreOk {
  ok_symmetric : symmetric adj;
  ok_loops : loops_paired adj;
  ok_even : even_degree adj
}.

(** The vertices that still have entries are all ahead of the scan. *)
Definition pending (i : nat) (t : list string)
    (adj : gmap string (list string)) : Prop :=
  ∀ v, v ∈ t → nbrs adj v ≠ [] → v ∈ drop i t.

(** The stores the algorithm goes through: each is obtained from the one
    before by one traversal step. *)
Definition step_rel (adj adj' : gmap string (list string)) : Prop :=
  ∃ cur nxt, tour_step cur adj = Ok (nxt, adj').

(** ** Valid inputs and Euler tours *)

Definition adjacent (adj : gmap string (list string)) (u v : string) : Prop :=
  v ∈ nbrs adj u.

(** The input the algorithm is written for: an undirected graph, given
    by the list of its vertices and their adjacency lists, that is
    connected and has even degrees. *)
Record euler_graph (g : Graph) : Prop := mkEulerGraph {
  eg_vertices : ∀ v, v ∈ vertices g ↔ is_Some (adj_list g !! v);
  eg_symmetric : symmetric (adj_list g);
  eg_loops : loops_paired (adj_list g);
  eg_even : even_degree (adj_list g);
  eg_connected :
    ∀ u v, u ∈ vertices g → v ∈ vertices g → rtc (adjacent (adj_list g)) u v
}.

Definition has_edge (g : Graph) : Prop := ∃ u, nbrs (adj_list g) u ≠ [].

(** |E|: every edge has one entry at each of its two ends. *)
Definition num_edges (g : Graph) : nat := adj_size (adj_list g) / 2.

(** The multiplicity of the undirected edge between [u] and [v] in the
    graph, and the number of times a walk goes along it. *)
Definition graph_edges (g : Graph) (u v : string) : nat :=
  if decide (u = v) then occ u (nbrs (adj_list g) u) / 2
  else occ v (nbrs (adj_list g) u).

Definition tour_edges (t : list string) (u v : string) : nat :=
  if decide (u = v) then occ (u, u) (steps t)
  else occ (u, v) (steps t) + occ (v, u) (steps t).

(** The steps of the cycle [l]: its consecutive pairs and the pair that
    wraps around from its last element to its first. *)
Definition cyclic_steps (l : list string) : list (string * string) :=
  match l with
  | [] => []
  | x :: r => zip l (r ++ [x])
  end.

(** The three properties of the tour of a graph: closed, along every
    edge once, of length |E| + 1. *)
Definition euler_tour (g : Graph) (tour : list string) : Prop :=
  is_Some (head tour) ∧ head tour = last tour ∧
  (∀ u v, tour_edges tour u v = graph_edges g u v) ∧
  length tour = num_edges g + 1.

(** ** The object store and the adjacency it holds *)

(** The dict object [d] of the store [h] holds the adjacency [adj]: its
    values are list objects, one of its own for every key, with the
    entries of [adj]. *)
Definition holds_adj (h : gmap positive obj) (d : positive)
    (adj : gmap string (list string)) : Prop :=
  ∃ m, dict_at h d = Some m ∧
       (∀ k1 k2 l, m !! k1 = Some l → m !! k2 = Some l → k1 = k2) ∧
       (∀ k l, m !! k = Some l → is_Some (list_at h l)) ∧
       adj = abs_adj h m.

(** The Graph object [r] in the store [h] holds the graph [g]: its
    attributes refer to the list of the vertices and to a dict that holds
    the adjacency. *)
Record represents (h : gmap positive obj) (r : GraphRef) (g : Graph)
    : Prop := mkRepresents {
  rep_vertices : list_at h (ref_vertices r) = Some (vertices g);
  rep_adj_list : holds_adj h (ref_adj_list r) (adj_list g)
}.

(** [keeps I c Q]: the command [c] maintains the property [I] of the
    store, whatever its outcome, and the values it returns satisfy [Q]. *)
Definition keeps {A} (I : gmap positive obj → Prop) (c : HM A)
    (Q : A → Prop) : Prop :=
  ∀ h, I h → I (c h).2 ∧ ∀ a, (c h).1 = Ok a → Q a.

(** The working copy [d'] made from the store [h0]: the objects of [h0]
    are as they were, and the lists of [d'] are not among them. *)
Definition owned (h0 : gmap positive obj) (d' l : positive) : Prop :=
  h0 !! l = None ∧ l ≠ d'.

Definition frame_inv (h0 : gmap positive obj) (d' : positive)
    (h : gmap positive obj) : Prop :=
  h0 ⊆ h ∧
  ∃ m', dict_at h d' = Some m' ∧ ∀ k l, m' !! k = Some l → owned h0 d' l.

(** [sim d ch cp]: on a store whose dict [d] holds the adjacency [adj],
    the command [ch] has the outcome of [cp] on [adj], and [d] holds the
    adjacency [cp] leaves. *)
Definition sim {A} (d : positive) (ch : HM A) (cp : M A) : Prop :=
  ∀ h adj, holds_adj h d adj →
    match cp adj with
    | Ok (a, adj') => ∃ h', ch h = (Ok a, h') ∧ holds_adj h' d adj'
    | Raise e => ∃ h', ch h = (Raise e, h')
    | OutOfFuel => ∃ h', ch h = (OutOfFuel, h')
    end.

(** The store [h'] is the store [h] with other values in list objects of
    the dict [m] at [d]: no object is added or removed, the dict object
    and the objects that are not values of [m] are the same. *)
Definition in_place (h : gmap positive obj) (d : positive)
    (m : gmap string positive) (h' : gmap positive obj) : Prop :=
  dom h' = dom h ∧ dict_at h' d = Some m ∧
  ∀ l, (∀ k, m !! k ≠ Some l) → h' !! l = h !! l.

(** ** Checkers for valid inputs *)

(** The vertices a walk of at most [n] edges from [u] can reach. *)
Fixpoint reach (adj : gmap string (list string)) (n : nat) (u : string)
    : list string :=
  match n with
  | 0 => [u]
  | S n' =>
      let r := reach adj n' u in
      remove_dups (r ++ (r ≫= nbrs adj))
  end.

Definition check_vertices (g : Graph) : bool :=
  bool_decide (list_to_set (vertices g) =@{gset string} dom (adj_list g)).

Definition check_even (adj : gmap string (list string)) : bool :=
  bool_decide (map_Forall (λ _ l, Nat.even (length l) = true) adj).

Definition check_loops (adj : gmap string (list string)) : bool :=
  bool_decide (map_Forall (λ u l, Nat.even (occ u l) = true) adj).

Definition check_symmetric (adj : gmap string (list string)) : bool :=
  bool_decide
    (map_Forall (λ u l, Forall (λ v, occ v l = occ u (nbrs adj v)) l) adj).

Definition check_connected (g : Graph) : bool :=
  bool_decide
    (Forall (λ u,
       Forall (λ v, v ∈ reach (adj_list g) (length (vertices g)) u)
              (vertices g))
       (vertices g)).

Definition check_graph (g : Graph) : bool :=
  check_vertices g && check_symmetric (adj_list g) && check_loops (adj_list g)
  && check_even (adj_list g) && check_connected g.

Definition check_represents (h : gmap positive obj) (r : GraphRef)
    (g : Graph) : bool :=
  bool_decide (list_at h (ref_vertices r) = Some (vertices g)) &&
  match dict_at h (ref_adj_list r) with
  | Some m =>
      bool_decide (NoDup ((map_to_list m).*2)) &&
      bool_decide (map_Forall (λ _ l, is_Some (list_at h l)) m) &&
      bool_decide (adj_list g = abs_adj h m)
  | None => false
  end.

(** ** The graphs of [main] and further inputs *)

Local Open Scope string_scope.

(** The graph of a string "v:n,...,n; ..." of [main]: the vertices in the
    order of the string, each with its neighbours in that order. *)
Definition graph_of (l : list (string * list string)) : Graph :=
  {| vertices := l.*1; adj_list := list_to_map l |}.

Definition graph3 : Graph :=
  graph_of [("a", ["b"; "d"]); ("b", ["a"; "c"]);
            ("c", ["b"; "d"]); ("d", ["a"; "c"])].

Definition graph2 : Graph :=
  graph_of [("a", ["b"; "f"]); ("b", ["a"; "c"; "d"; "e"]);
            ("c", ["b"; "d"]); ("d", ["b"; "c"; "e"; "f"]);
            ("e", ["b"; "d"]); ("f", ["a"; "d"])].

Definition graph5 : Graph :=
  graph_of [("a", ["b"; "c"; "e"; "f"; "g"; "h"]); ("b", ["a"; "c"; "g"; "h"]);
            ("c", ["a"; "b"; "d"; "e"; "h"; "i"]); ("d", ["c"; "e"; "f"; "i"]);
            ("e", ["a"; "c"; "d"; "f"]); ("f", ["a"; "d"; "e"; "g"]);
            ("g", ["a"; "b"; "f"; "h"]); ("h", ["a"; "b"; "c"; "g"]);
            ("i", ["c"; "d"])].

(** A master tour and a sub-tour from its second vertex. *)
Definition tour_abca : list string := ["a"; "b"; "c"; "a"].
Definition tour_bdeb : list string := ["b"; "d"; "e"; "b"].

(** The graph with one vertex and no edge. *)
Definition graph_K1 : Graph := graph_of [("a"%string, [])].

(** The path a - b: two vertices of odd degree. *)
Definition graph_path : Graph := graph_of [("a", ["b"]); ("b", ["a"])].

(** Two entries at a without their opposite entries at b and c. *)
Definition graph_oneway : Graph :=
  graph_of [("a", ["b"; "c"]); ("b", []); ("c", [])].

(** Two triangles without a common vertex: even degrees, not connected. *)
Definition graph_triangles : Graph :=
  graph_of [("a", ["b"; "c"]); ("b", ["a"; "c"]); ("c", ["a"; "b"]);
            ("d", ["e"; "f"]); ("e", ["d"; "f"]); ("f", ["d"; "e"])].

(** Two triangles that share the vertex a; the store after the first walk
    from a has gone around the triangle a, e, d; the tour and the store at
    the end. *)
Definition graph_bowtie : Graph :=
  graph_of [("a", ["b"; "c"; "d"; "e"]); ("b", ["a"; "c"]); ("c", ["b"; "a"]);
            ("d", ["a"; "e"]); ("e", ["d"; "a"])].

Definition tour_aeda : list string := ["a"; "e"; "d"; "a"].

Definition store_bowtie_rest : gmap string (list string) :=
  list_to_map [("a", ["b"; "c"]); ("b", ["a"; "c"]); ("c", ["b"; "a"]);
               ("d", []); ("e", [])].

Definition tour_bowtie : list string := ["a"; "c"; "b"; "a"; "e"; "d"; "a"].

Definition store_bowtie_end : gmap string (list string) :=
  list_to_map [("a", []); ("b", []); ("c", []); ("d", []); ("e", [])].

(** Test graph 3 of [main] as objects. *)
Definition heap3 : gmap positive obj :=
  list_to_map
    [(1%positive, OList ["a"; "b"; "c"; "d"]);
     (2%positive, ODict (list_to_map [("a", 3%positive); ("b", 4%positive);
                                      ("c", 5%positive); ("d", 6%positive)]));
     (3%positive, OList ["b"; "d"]); (4%positive, OList ["a"; "c"]);
     (5%positive, OList ["b"; "d"]); (6%positive, OList ["a"; "c"])].

Definition ref3 : GraphRef := {| ref_vertices := 1; ref_adj_list := 2 |}.

(** The dict object of [heap3]. *)
Definition dict3 : gmap string positive :=
  list_to_map [("a", 3%positive); ("b", 4%positive);
               ("c", 5%positive); ("d", 6%positive)].

Local Close Scope string_scope.

(** * Lemmas *)

(** ** Lemmas on the list primitives *)

Section lists.
Context `{EqDecision A}.
Implicit Types (x y : A) (l k : list A).

Lemma occ_nil x : occ x [] = 0.
Proof. done. Qed.

Lemma occ_cons x y l :
  occ x (y :: l) = (if decide (y = x) then 1 else 0) + occ x l.
Proof. unfold occ. rewrite filter_cons. by case_decide. Qed.

Lemma occ_app x l k : occ x (l ++ k) = occ x l + occ x k.
Proof. unfold occ. by rewrite filter_app, length_app. Qed.

#[global] Instance occ_perm x : Proper ((≡ₚ) ==> (=)) (occ x).
Proof. intros l k Hlk. unfold occ. by rewrite Hlk. Qed.

Lemma occ_pos x l : 0 < occ x l ↔ x ∈ l.
Proof.
  induction l as [|y l IH]; [rewrite occ_nil; split; [lia|by inversion 1]|].
  rewrite occ_cons, elem_of_cons. case_decide; subst; [split; [auto|lia]|].
  rewrite <- IH. split; [auto|]. intros [?|?]; [congruence|done].
Qed.

Lemma occ_le_length x l : occ x l ≤ length l.
Proof. apply length_filter. Qed.

Lemma list_pop_snoc l x : list_pop (l ++ [x]) = Some (x, l).
Proof.
  unfold list_pop. rewrite reverse_app. simpl. by rewrite reverse_involutive.
Qed.

Lemma list_pop_nil : list_pop (@nil A) = None.
Proof. done. Qed.

Lemma list_pop_Some l x k : list_pop l = Some (x, k) ↔ l = k ++ [x].
Proof.
  split; [|intros ->; apply list_pop_snoc].
  destruct l as [|y l _] using rev_ind; [done|].
  rewrite list_pop_snoc. by intros [= -> ->].
Qed.

Lemma list_pop_None l : list_pop l = None ↔ l = [].
Proof.
  split; [|by intros ->].
  destruct l as [|y l _] using rev_ind; [done|]. by rewrite list_pop_snoc.
Qed.

Lemma list_remove_Some x l k : list_remove x l = Some k → l ≡ₚ x :: k.
Proof.
  revert k. induction l as [|y l IH]; intros k; simpl; [done|].
  case_decide; subst; [by intros [= ->]|].
  destruct (list_remove x l) as [r|]; [|done]. intros [= <-].
  rewrite (IH r eq_refl). apply Permutation_swap.
Qed.

Lemma list_remove_is_Some x l : x ∈ l → is_Some (list_remove x l).
Proof.
  induction l as [|y l IH]; [by inversion 1|]. simpl.
  case_decide; [eauto|]. intros [?|Hin]%elem_of_cons; [congruence|].
  destruct (IH Hin) as [r ->]. eauto.
Qed.

Lemma list_remove_None x l : list_remove x l = None ↔ x ∉ l.
Proof.
  split.
  - intros Hn Hin. apply list_remove_is_Some in Hin as [r Hr]. congruence.
  - intros Hn. destruct (list_remove x l) as [r|] eqn:Hr; [|done].
    apply list_remove_Some in Hr. destruct Hn. rewrite Hr. by left.
Qed.
End lists.

(** ** Lemmas on walks *)

Lemma steps_cons2 x y t : steps (x :: y :: t) = (x, y) :: steps (y :: t).
Proof. done. Qed.

Lemma steps_snoc t x y :
  last t = Some x → steps (t ++ [y]) = steps t ++ [(x, y)].
Proof.
  induction t as [|a [|b t] IH]; [done| |].
  - by intros [= ->].
  - intros Hl. change (last (b :: t) = Some x) in Hl.
    change (steps ((a :: b :: t) ++ [y]))
      with ((a, b) :: steps ((b :: t) ++ [y])).
    by rewrite (IH Hl).
Qed.

Lemma steps_app_mid l1 x l2 :
  steps (l1 ++ x :: l2) = steps (l1 ++ [x]) ++ steps (x :: l2).
Proof.
  induction l1 as [|a [|b l1] IH]; [done| |].
  - destruct l2; simpl; done.
  - change (steps ((a :: b :: l1) ++ x :: l2))
      with ((a, b) :: steps ((b :: l1) ++ x :: l2)).
    rewrite IH. done.
Qed.

Lemma length_steps t : length (steps t) = length t - 1.
Proof.
  induction t as [|a [|b t] IH]; [done..|].
  rewrite steps_cons2. simpl in *. lia.
Qed.

Lemma elem_of_steps a b t : (a, b) ∈ steps t → a ∈ t ∧ b ∈ t.
Proof.
  induction t as [|x [|y t] IH]; [by inversion 1..|].
  rewrite steps_cons2. intros [[= -> ->]|Hin]%elem_of_cons.
  - split; [left|right; left].
  - destruct (IH Hin). split; by right.
Qed.

Lemma elem_of_steps_from a t :
  a ∈ t → 2 ≤ length t → ∃ b, (a, b) ∈ steps t ∨ (b, a) ∈ steps t.
Proof.
  induction t as [|x [|y t] IH]; [by inversion 1|simpl; lia|].
  intros Hin _. rewrite steps_cons2.
  apply elem_of_cons in Hin as [->|Hin]; [exists y; left; left|].
  destruct t as [|z t].
  - apply list_elem_of_singleton in Hin as ->. exists x. right. left.
  - destruct IH as [b Hb]; [done|simpl; lia|].
    exists b. destruct Hb; [left|right]; by right.
Qed.

Lemma used_nil u : used u [] = [].
Proof. done. Qed.

Lemma used_app u es es' : used u (es ++ es') = used u es ++ used u es'.
Proof. apply bind_app. Qed.

#[global] Instance used_perm u : Proper ((≡ₚ) ==> (≡ₚ)) (used u).
Proof. intros es es' H. unfold used. by rewrite H. Qed.

Lemma occ_half u v e :
  occ v (half u e) =
    (if decide (e = (u, v)) then 1 else 0) + (if decide (e = (v, u)) then 1 else 0).
Proof.
  destruct e as [a b]. unfold half. simpl. rewrite occ_app.
  repeat case_decide; simplify_eq; rewrite ?occ_cons, ?occ_nil;
    repeat case_decide; simplify_eq; done.
Qed.

Lemma occ_used u v es : occ v (used u es) = occ (u, v) es + occ (v, u) es.
Proof.
  induction es as [|e es IH]; [done|].
  change (used u (e :: es)) with (half u e ++ used u es).
  rewrite occ_app, IH, occ_half, !occ_cons. lia.
Qed.

Lemma elem_of_used u v es : v ∈ used u es ↔ (u, v) ∈ es ∨ (v, u) ∈ es.
Proof. rewrite <- !occ_pos, occ_used. lia. Qed.

(** ** The size of the store *)

Lemma adj_size_insert (adj : gmap string (list string)) k l l' :
  adj !! k = Some l →
  adj_size (<[k := l']> adj) + length l = adj_size adj + length l'.
Proof.
  intros Hk. unfold adj_size.
  rewrite (map_fold_delete_L _ _ k l adj); [|intros; lia|done].
  rewrite <- (insert_delete_eq adj k l').
  rewrite map_fold_insert_L; [lia|intros; lia|apply lookup_delete_eq].
Qed.

Lemma adj_size_empty (adj : gmap string (list string)) :
  (∀ u, nbrs adj u = []) → adj_size adj = 0.
Proof.
  unfold adj_size.
  apply (map_fold_weak_ind
    (λ r (m : gmap string (list string)), (∀ u, nbrs m u = []) → r = 0)).
  - done.
  - intros i x m r Hi IH Hall.
    assert (x = []) as ->.
    { specialize (Hall i). unfold nbrs in Hall.
      by rewrite lookup_insert_eq in Hall. }
    rewrite IH; [done|]. intros u. specialize (Hall u). unfold nbrs in *.
    destruct (decide (i = u)) as [->|]; [by rewrite Hi|].
    by rewrite lookup_insert_ne in Hall.
Qed.

(** ** What a run takes out of the store *)

Lemma consumes_refl adj : consumes adj adj [].
Proof. split; [done|done|done|]. by inversion 1. Qed.

Lemma consumes_trans adj1 adj2 adj3 es es' :
  consumes adj1 adj2 es → consumes adj2 adj3 es' →
  consumes adj1 adj3 (es ++ es').
Proof.
  intros [D1 N1 S1 K1] [D2 N2 S2 K2]. split.
  - intros u. by rewrite D2, D1.
  - intros u. rewrite used_app, N1, N2. by rewrite (assoc (++)).
  - rewrite length_app. lia.
  - intros a b [?|Hin]%elem_of_app; [by apply K1|].
    rewrite <- !D1. by apply K2.
Qed.

Lemma consumes_perm adj adj' es es' :
  es ≡ₚ es' → consumes adj adj' es → consumes adj adj' es'.
Proof.
  intros Hp [D N S K]. split; [done| | |].
  - intros u. by rewrite <- Hp.
  - by rewrite <- Hp.
  - intros a b. rewrite <- Hp. apply K.
Qed.

Lemma consumes_occ adj adj' es u v :
  consumes adj adj' es →
  occ v (nbrs adj u) = occ (u, v) es + occ (v, u) es + occ v (nbrs adj' u).
Proof. intros [_ N _ _]. by rewrite (N u), occ_app, occ_used. Qed.

Lemma consumes_nbrs_nil adj adj' es u :
  consumes adj adj' es → nbrs adj u = [] → nbrs adj' u = [].
Proof.
  intros [_ N _ _] Hn. specialize (N u). rewrite Hn in N.
  symmetry in N. apply Permutation_nil_r in N.
  by apply app_eq_nil in N as [_ ?].
Qed.

(** ** One traversal step *)

Lemma nbrs_lookup adj u l : adj !! u = Some l → nbrs adj u = l.
Proof. unfold nbrs. by intros ->. Qed.

Lemma nbrs_insert_eq adj u l : nbrs (<[u := l]> adj) u = l.
Proof. unfold nbrs. by rewrite lookup_insert_eq. Qed.

Lemma nbrs_insert_ne adj u v l : u ≠ v → nbrs (<[u := l]> adj) v = nbrs adj v.
Proof. intros. unfold nbrs. by rewrite lookup_insert_ne. Qed.

Lemma nbrs_is_Some adj u : nbrs adj u ≠ [] → is_Some (adj !! u).
Proof. unfold nbrs. destruct (adj !! u); [eauto|done]. Qed.

(** The run of a step, written out. *)
Lemma tour_step_unfold cur adj :
  tour_step cur adj =
    match adj !! cur with
    | None => Raise KeyError
    | Some l =>
        match list_pop l with
        | None => Raise IndexError
        | Some (nxt, l') =>
            match <[cur := l']> adj !! nxt with
            | None => Raise KeyError
            | Some k =>
                match list_remove cur k with
                | None => Raise ValueError
                | Some k' => Ok (nxt, <[nxt := k']> (<[cur := l']> adj))
                end
            end
        end
    end.
Proof.
  unfold tour_step, adj_pop, adj_remove, adj_get, adj_put, raise.
  unfold mbind, M_bind, mret, M_ret.
  destruct (adj !! cur) as [l|]; [|done].
  destruct (list_pop l) as [[nxt l']|]; [|done].
  destruct (<[cur := l']> adj !! nxt) as [k|]; [|done].
  by destruct (list_remove cur k).
Qed.

Lemma tour_step_Ok cur adj nxt adj' :
  tour_step cur adj = Ok (nxt, adj') → consumes adj adj' [(cur, nxt)].
Proof.
  rewrite tour_step_unfold.
  destruct (adj !! cur) as [l|] eqn:Hcur; [|done].
  destruct (list_pop l) as [[nxt' l']|] eqn:Hpop; [|done].
  apply list_pop_Some in Hpop as ->.
  destruct (<[cur := l']> adj !! nxt') as [k|] eqn:Hnxt; [|done].
  destruct (list_remove cur k) as [k'|] eqn:Hrem; [|done].
  intros [= -> <-]. apply list_remove_Some in Hrem.
  assert (is_Some (adj !! nxt)) as Hnk.
  { destruct (decide (cur = nxt)) as [<-|]; [eauto|].
    rewrite lookup_insert_ne in Hnxt by done. eauto. }
  split.
  - intros u. rewrite !lookup_insert. repeat case_decide; subst; naive_solver.
  - intros u. unfold used. simpl. rewrite (right_id [] (++)). unfold half. simpl.
    destruct (decide (cur = u)) as [Hcu|Hcu];
      destruct (decide (nxt = u)) as [Hnu|Hnu]; simplify_eq; simpl.
    + rewrite lookup_insert_eq in Hnxt. injection Hnxt as <-.
      rewrite nbrs_insert_eq, (nbrs_lookup _ _ _ Hcur), Hrem.
      by rewrite <- Permutation_cons_append.
    + rewrite nbrs_insert_ne, nbrs_insert_eq, (nbrs_lookup _ _ _ Hcur) by done.
      by rewrite <- Permutation_cons_append.
    + rewrite lookup_insert_ne in Hnxt by done.
      by rewrite nbrs_insert_eq, (nbrs_lookup _ _ _ Hnxt).
    + by rewrite !nbrs_insert_ne by done.
  - pose proof (adj_size_insert adj cur _ l' Hcur) as H1.
    pose proof (adj_size_insert _ nxt _ k' Hnxt) as H2.
    apply Permutation_length in Hrem. rewrite length_app in H1.
    simpl in *. lia.
  - intros a b [= -> ->]%list_elem_of_singleton. eauto.
Qed.

Lemma tour_step_progress cur adj l nxt :
  adj !! cur = Some (l ++ [nxt]) →
  cur ∈ nbrs (<[cur := l]> adj) nxt →
  ∃ adj', tour_step cur adj = Ok (nxt, adj').
Proof.
  intros Hcur Hin. rewrite tour_step_unfold, Hcur, list_pop_snoc.
  unfold nbrs in Hin.
  destruct (<[cur := l]> adj !! nxt) as [k|]; [|by inversion Hin].
  simpl in Hin. destruct (list_remove_is_Some _ _ Hin) as [k' ->]. eauto.
Qed.

(** A step on a vertex without entries raises; nothing is returned. *)
Lemma tour_step_stuck cur adj :
  adj !! cur = Some [] → tour_step cur adj = Raise IndexError.
Proof. intros H. by rewrite tour_step_unfold, H. Qed.

Lemma tour_step_no_key cur adj :
  adj !! cur = None → tour_step cur adj = Raise KeyError.
Proof. intros H. by rewrite tour_step_unfold, H. Qed.

Lemma tour_step_fuel cur adj : tour_step cur adj ≠ OutOfFuel.
Proof.
  rewrite tour_step_unfold. repeat case_match; done.
Qed.

(** ** Invariants of the store *)

Lemma walking_even s adj : walking s s adj ↔ even_degree adj.
Proof.
  unfold walking, even_degree, ind. split; intros H u; specialize (H u);
    destruct H as [k Hk]; case_decide.
  - exists (k - 1). lia.
  - exists k. lia.
  - exists (k + 1). lia.
  - exists k. lia.
Qed.

Lemma consumes_symmetric adj adj' es :
  consumes adj adj' es → symmetric adj → symmetric adj'.
Proof.
  intros Hc Hs u v. specialize (Hs u v).
  rewrite (consumes_occ _ _ _ u v Hc), (consumes_occ _ _ _ v u Hc) in Hs. lia.
Qed.

Lemma consumes_loops adj adj' es :
  consumes adj adj' es → loops_paired adj → loops_paired adj'.
Proof.
  intros Hc Hl u. destruct (Hl u) as [k Hk].
  rewrite (consumes_occ _ _ _ u u Hc) in Hk.
  exists (k - occ (u, u) es). lia.
Qed.

Lemma consumes_walking adj adj' s cur nxt :
  consumes adj adj' [(cur, nxt)] → walking s cur adj → walking s nxt adj'.
Proof.
  intros [_ N _ _] Hw u. destruct (Hw u) as [k Hk].
  specialize (N u). apply Permutation_length in N.
  rewrite length_app in N. revert N Hk.
  unfold used, half, ind. simpl.
  repeat case_decide; simplify_eq; simpl; intros;
    first [exists k; lia | exists (k - 1); lia | exists (k + 1); lia].
Qed.

Lemma walking_nonempty adj s cur :
  walking s cur adj → cur ≠ s → nbrs adj cur ≠ [].
Proof.
  intros Hw Hne Hnil. destruct (Hw cur) as [k Hk]. revert Hk.
  rewrite Hnil. unfold ind. rewrite decide_False, decide_True by done.
  simpl. lia.
Qed.

(** From a vertex that still has an entry, a step of a walk succeeds. *)
Lemma tour_step_total adj s cur :
  symmetric adj → loops_paired adj → walking s cur adj →
  nbrs adj cur ≠ [] →
  ∃ nxt adj', tour_step cur adj = Ok (nxt, adj').
Proof.
  intros Hs Hl Hw Hne.
  destruct (nbrs_is_Some _ _ Hne) as [l Hcur].
  rewrite (nbrs_lookup _ _ _ Hcur) in Hne.
  destruct l as [|nxt l _] using rev_ind; [done|]. clear Hne.
  exists nxt. apply (tour_step_progress _ _ l); [done|].
  apply occ_pos. destruct (decide (cur = nxt)) as [<-|Hne].
  - rewrite nbrs_insert_eq. destruct (Hl cur) as [k Hk].
    rewrite (nbrs_lookup _ _ _ Hcur), occ_app, occ_cons, occ_nil in Hk.
    rewrite decide_True in Hk by done. lia.
  - rewrite nbrs_insert_ne by done. rewrite <- Hs.
    rewrite (nbrs_lookup _ _ _ Hcur), occ_app, occ_cons.
    rewrite decide_True by done. lia.
Qed.

(** ** The walk of [hierholzer_tour] *)

Lemma bind_unfold {A B} (m : M A) (f : A → M B) adj :
  (m ≫= f) adj =
    match m adj with
    | Ok (a, adj') => f a adj'
    | Raise e => Raise e
    | OutOfFuel => OutOfFuel
    end.
Proof. done. Qed.

Lemma tour_loop_done fuel s t adj : tour_loop fuel s s t adj = Ok (t, adj).
Proof. destruct fuel; simpl; by rewrite decide_True. Qed.

Lemma tour_loop_0 s nxt t adj : nxt ≠ s → tour_loop 0 s nxt t adj = OutOfFuel.
Proof. intros. simpl. by rewrite decide_False. Qed.

Lemma tour_loop_S fuel s nxt t adj :
  nxt ≠ s →
  tour_loop (S fuel) s nxt t adj =
    match tour_step nxt adj with
    | Ok (nxt', adj') => tour_loop fuel s nxt' (t ++ [nxt']) adj'
    | Raise e => Raise e
    | OutOfFuel => OutOfFuel
    end.
Proof. intros. simpl. by rewrite decide_False. Qed.

(** Whatever the store, a loop that returns has walked along consumed
    edges back to [s]. *)
Lemma tour_loop_Ok fuel s nxt t adj t' adj' :
  tour_loop fuel s nxt t adj = Ok (t', adj') →
  last t = Some nxt →
  ∃ es, consumes adj adj' es ∧ steps t' = steps t ++ es ∧
        last t' = Some s ∧ ∃ r, t' = t ++ r.
Proof.
  revert nxt t adj. induction fuel as [|fuel IH]; intros nxt t adj Hrun Hlast.
  all: destruct (decide (nxt = s)) as [->|Hne].
  1,3: rewrite tour_loop_done in Hrun; injection Hrun as <- <-; exists [];
    split_and!; [apply consumes_refl|by rewrite (right_id [] (++))|done|];
    exists []; by rewrite (right_id [] (++)).
  - by rewrite tour_loop_0 in Hrun.
  - rewrite tour_loop_S in Hrun by done.
    destruct (tour_step nxt adj) as [[nxt' adj1]| |] eqn:Hstep; [|done..].
    apply tour_step_Ok in Hstep.
    destruct (IH _ _ _ Hrun) as (es & Hc & Hst & Hl & r & Hr).
    { by rewrite last_snoc. }
    exists ((nxt, nxt') :: es). split_and!.
    + apply (consumes_trans _ _ _ [_] _ Hstep Hc).
    + rewrite Hst, (steps_snoc _ nxt) by done. by rewrite <- (assoc (++)).
    + done.
    + exists (nxt' :: r). rewrite Hr. by rewrite <- (assoc (++)).
Qed.

(** The budget is never exhausted: every step shrinks the store. *)
Lemma tour_loop_fuel fuel s nxt t adj :
  adj_size adj < fuel → tour_loop fuel s nxt t adj ≠ OutOfFuel.
Proof.
  revert nxt t adj. induction fuel as [|fuel IH]; intros nxt t adj Hsz; [lia|].
  destruct (decide (nxt = s)) as [->|Hne]; [by rewrite tour_loop_done|].
  rewrite tour_loop_S by done.
  destruct (tour_step nxt adj) as [[nxt' adj1]| |] eqn:Hstep; [|done|].
  - apply IH. apply tour_step_Ok in Hstep as [_ _ S _]. simpl in S. lia.
  - by apply tour_step_fuel in Hstep.
Qed.

Lemma tour_loop_total fuel s nxt t adj :
  symmetric adj → loops_paired adj → walking s nxt adj →
  adj_size adj < fuel →
  ∃ t' adj', tour_loop fuel s nxt t adj = Ok (t', adj') ∧ store_ok adj'.
Proof.
  revert nxt t adj. induction fuel as [|fuel IH];
    intros nxt t adj Hs Hl Hw Hsz; [lia|].
  destruct (decide (nxt = s)) as [->|Hne].
  { rewrite tour_loop_done. exists t, adj. split; [done|].
    split; [done..|by apply walking_even in Hw]. }
  rewrite tour_loop_S by done.
  destruct (tour_step_total adj s nxt) as (nxt' & adj1 & Hstep);
    [done..|by apply (walking_nonempty _ s)|].
  rewrite Hstep. apply tour_step_Ok in Hstep.
  apply IH.
  - by apply (consumes_symmetric _ _ _ Hstep).
  - by apply (consumes_loops _ _ _ Hstep).
  - by apply (consumes_walking _ _ _ _ _ Hstep).
  - destruct Hstep as [_ _ S _]. simpl in S. lia.
Qed.

Lemma hierholzer_tour_unfold s adj :
  hierholzer_tour s adj =
    match tour_step s adj with
    | Ok (nxt, adj') => tour_loop (S (adj_size adj')) s nxt [s; nxt] adj'
    | Raise e => Raise e
    | OutOfFuel => OutOfFuel
    end.
Proof.
  unfold hierholzer_tour. rewrite bind_unfold.
  by destruct (tour_step s adj) as [[nxt adj']| |].
Qed.

Lemma hierholzer_tour_Ok s adj t adj' :
  hierholzer_tour s adj = Ok (t, adj') →
  consumes adj adj' (steps t) ∧ head t = Some s ∧ last t = Some s ∧
  2 ≤ length t.
Proof.
  rewrite hierholzer_tour_unfold.
  destruct (tour_step s adj) as [[nxt adj1]| |] eqn:Hstep; [|done..].
  intros Hrun. apply tour_step_Ok in Hstep.
  apply tour_loop_Ok in Hrun as (es & Hc & Hst & Hl & r & ->); [|done].
  split_and!; [|done|done|simpl; lia].
  rewrite Hst. apply (consumes_trans _ _ _ [_] _ Hstep Hc).
Qed.

Lemma hierholzer_tour_fuel s adj : hierholzer_tour s adj ≠ OutOfFuel.
Proof.
  rewrite hierholzer_tour_unfold.
  destruct (tour_step s adj) as [[nxt adj1]| |] eqn:Hstep; [|done|].
  - apply tour_loop_fuel. lia.
  - by apply tour_step_fuel in Hstep.
Qed.

Lemma hierholzer_tour_total s adj :
  store_ok adj → nbrs adj s ≠ [] →
  ∃ t adj', hierholzer_tour s adj = Ok (t, adj') ∧ store_ok adj'.
Proof.
  intros [Hs Hl He] Hne. apply (walking_even s) in He.
  rewrite hierholzer_tour_unfold.
  destruct (tour_step_total adj s s) as (nxt & adj1 & Hstep); [done..|].
  rewrite Hstep. apply tour_step_Ok in Hstep.
  apply tour_loop_total; [| | |lia].
  - by apply (consumes_symmetric _ _ _ Hstep).
  - by apply (consumes_loops _ _ _ Hstep).
  - by apply (consumes_walking _ _ _ _ _ Hstep).
Qed.

(** ** The splice *)

Lemma enumerate_snoc {A} (l : list A) x :
  enumerate (l ++ [x]) = enumerate l ++ [(length l, x)].
Proof.
  unfold enumerate. rewrite length_app. simpl.
  rewrite seq_app. simpl.
  rewrite zip_with_app by (by rewrite length_seq). done.
Qed.

Lemma enumerate_fst_lt {A} (l : list A) p : p ∈ enumerate l → p.1 < length l.
Proof.
  induction l as [|x l IH] using rev_ind; [by inversion 1|].
  rewrite enumerate_snoc, length_app. simpl.
  intros [Hin| ->%list_elem_of_singleton]%elem_of_app; [|simpl; lia].
  specialize (IH Hin). lia.
Qed.

Lemma enumerate_snd {A} (l : list A) : (enumerate l).*2 = l.
Proof.
  induction l as [|x l IH] using rev_ind; [done|].
  by rewrite enumerate_snoc, fmap_app, IH.
Qed.

(** Inserting the elements of [l] one after the other at the same
    position leaves them there in the opposite order. *)
Lemma fold_py_insert (p m d l : list string) :
  fold_left (λ t u, py_insert (length p) u t) l (p ++ m ++ d)
  = p ++ reverse l ++ m ++ d.
Proof.
  revert m. induction l as [|u l IH]; intros m; [done|]. simpl.
  replace (py_insert (length p) u (p ++ m ++ d)) with (p ++ (u :: m) ++ d)
    by (unfold py_insert; by rewrite take_app_length, drop_app_length).
  rewrite (IH (u :: m)), reverse_cons, <- (assoc (++)). done.
Qed.

Lemma fold_skip_index (N i : nat) (ps : list (nat * string)) (t : list string) :
  (∀ p, p ∈ ps → p.1 ≠ N) →
  fold_left (λ t '(u_index, u),
               if decide (u_index = N) then t else py_insert i u t) ps t
  = fold_left (λ t u, py_insert i u t) (ps.*2) t.
Proof.
  revert t. induction ps as [|[j u] ps IH]; intros t Hall; [done|]. simpl.
  rewrite decide_False; [|apply (Hall (j, u)); left].
  apply IH. intros p Hp. apply Hall. by right.
Qed.

Lemma splice_cons v_index v rest tour :
  v_index < length tour →
  splice v_index (v :: rest) tour
  = take (S v_index) tour ++ rest ++ drop (S v_index) tour.
Proof.
  intros Hlt. unfold splice.
  rewrite reverse_cons, enumerate_snoc, fold_left_app. simpl.
  rewrite length_reverse, Nat.sub_0_r, decide_True by done.
  rewrite fold_skip_index.
  2:{ intros p Hp%enumerate_fst_lt. rewrite length_reverse in Hp. lia. }
  rewrite enumerate_snd, Nat.add_1_r.
  rewrite <- (take_drop (S v_index) tour) at 1.
  pose proof (fold_py_insert (take (S v_index) tour) [] (drop (S v_index) tour)
                (reverse rest)) as H.
  rewrite length_take_le in H by lia.
  simpl in H. rewrite H, reverse_involutive. done.
Qed.

Lemma splice_nil v_index tour : splice v_index [] tour = tour.
Proof. done. Qed.

(** The master tour after a splice: the occurrence of [v] at [v_index] is
    replaced by the sub-tour. *)
Lemma splice_spec v_index v v_tour tour :
  tour !! v_index = Some v → head v_tour = Some v →
  splice v_index v_tour tour
  = take v_index tour ++ v_tour ++ drop (S v_index) tour.
Proof.
  intros Hv Hh. destruct v_tour as [|v' rest]; [done|]. injection Hh as ->.
  rewrite splice_cons by (by eapply lookup_lt_Some).
  rewrite (take_S_r _ _ _ Hv), <- (assoc (++)). done.
Qed.

Lemma splice_length v_index v v_tour tour :
  tour !! v_index = Some v → head v_tour = Some v →
  length (splice v_index v_tour tour) = length tour + length v_tour - 1.
Proof.
  intros Hv Hh. rewrite (splice_spec _ v) by done.
  pose proof (lookup_lt_Some _ _ _ Hv).
  rewrite !length_app, length_take_le, length_drop by lia.
  destruct v_tour; [done|]. simpl. lia.
Qed.

Lemma splice_head v_index v v_tour tour :
  tour !! v_index = Some v → head v_tour = Some v →
  head (splice v_index v_tour tour) = head tour.
Proof.
  intros Hv Hh. rewrite (splice_spec _ v) by done.
  destruct v_index as [|i].
  - destruct tour as [|x tour]; [done|]. injection Hv as ->.
    destruct v_tour; [done|]. done.
  - by destruct tour.
Qed.

Lemma splice_last v_index v v_tour tour :
  tour !! v_index = Some v → head v_tour = Some v → last v_tour = Some v →
  last (splice v_index v_tour tour) = last tour.
Proof.
  intros Hv Hh Hl. rewrite (splice_spec _ v) by done.
  rewrite <- (take_drop_middle _ _ _ Hv) at 3.
  destruct (drop (S v_index) tour) as [|y d].
  - rewrite (right_id [] (++)), !last_app, Hl. done.
  - rewrite (assoc (++)), !last_app_cons.
    change (v :: y :: d) with ([v] ++ y :: d). by rewrite last_app_cons.
Qed.

Lemma splice_steps v_index v v_tour tour :
  tour !! v_index = Some v → head v_tour = Some v → last v_tour = Some v →
  steps (splice v_index v_tour tour) ≡ₚ steps tour ++ steps v_tour.
Proof.
  intros Hv Hh Hl. rewrite (splice_spec _ v) by done.
  rewrite <- (take_drop_middle _ _ _ Hv) at 3.
  destruct v_tour as [|v' rest]; [done|]. injection Hh as ->.
  destruct (decide (rest = [])) as [->|Hrest].
  { simpl. by rewrite (right_id [] (++)). }
  destruct rest as [|x rest' _] using rev_ind; [done|]. clear Hrest.
  rewrite app_comm_cons, last_snoc in Hl. injection Hl as ->.
  generalize (take v_index tour) (drop (S v_index) tour). intros a d.
  change ((v :: rest' ++ [v]) ++ d) with (v :: (rest' ++ [v]) ++ d).
  rewrite (steps_app_mid a v ((rest' ++ [v]) ++ d)), (steps_app_mid a v d).
  replace (v :: (rest' ++ [v]) ++ d) with ((v :: rest') ++ v :: d)
    by (by rewrite <- !(assoc (++))).
  rewrite (steps_app_mid (v :: rest') v d).
  rewrite <- !(assoc (++)). apply Permutation_app_head.
  apply Permutation_app_comm.
Qed.

Lemma elem_of_splice v_index v v_tour tour u :
  tour !! v_index = Some v → head v_tour = Some v →
  u ∈ splice v_index v_tour tour ↔ u ∈ tour ∨ u ∈ v_tour.
Proof.
  intros Hv Hh. rewrite (splice_spec _ v) by done.
  assert (u ∈ tour ↔
          u ∈ take v_index tour ∨ u = v ∨ u ∈ drop (S v_index) tour) as ->.
  { rewrite <- (take_drop_middle _ _ _ Hv) at 1.
    by rewrite elem_of_app, elem_of_cons. }
  destruct v_tour as [|v' rest]; [done|]. injection Hh as ->.
  rewrite !elem_of_app, !elem_of_cons. tauto.
Qed.

(** ** The scan of the master tour *)

Lemma scan_end fuel i t adj : t !! i = None → scan fuel i t adj = Ok (t, adj).
Proof. intros H. destruct fuel; simpl; by rewrite H. Qed.

Lemma scan_0 i t v adj : t !! i = Some v → scan 0 i t adj = OutOfFuel.
Proof. intros H. simpl. by rewrite H. Qed.

Lemma scan_S fuel i t v adj :
  t !! i = Some v →
  scan (S fuel) i t adj =
    match adj !! v with
    | None => Raise KeyError
    | Some l =>
        if decide (length l ≠ 0) then
          match hierholzer_tour v adj with
          | Ok (v_tour, adj') => scan fuel (S i) (splice i v_tour t) adj'
          | Raise e => Raise e
          | OutOfFuel => OutOfFuel
          end
        else scan fuel (S i) t adj
    end.
Proof.
  intros H. simpl. rewrite H. unfold adj_len, adj_get.
  rewrite !bind_unfold. destruct (adj !! v) as [l|]; [|done].
  unfold mret, M_ret. case_decide; [|done]. by rewrite bind_unfold.
Qed.

Lemma pending_skip i t v adj :
  t !! i = Some v → nbrs adj v = [] → pending i t adj → pending (S i) t adj.
Proof.
  intros Hv Hnil Hp w Hw Hne. specialize (Hp w Hw Hne).
  rewrite (drop_S _ _ _ Hv) in Hp.
  apply elem_of_cons in Hp as [->|]; [done|done].
Qed.

Lemma pending_splice i t v v_tour adj adj' :
  t !! i = Some v → head v_tour = Some v → last v_tour = Some v →
  2 ≤ length v_tour →
  consumes adj adj' (steps v_tour) →
  pending i t adj → pending (S i) (splice i v_tour t) adj'.
Proof.
  intros Hv Hh Hl Hlen Hc Hp w Hw Hne.
  apply (elem_of_splice _ v) in Hw; [|done..].
  destruct v_tour as [|v' rest]; [done|]. injection Hh as ->.
  rewrite splice_cons by (by eapply lookup_lt_Some).
  pose proof (lookup_lt_Some _ _ _ Hv) as Hlt.
  rewrite drop_app_length' by (rewrite length_take_le; lia).
  assert (v ∈ rest) as Hvr.
  { destruct rest as [|x rest]; [simpl in Hlen; lia|].
    rewrite last_cons_cons in Hl. by apply last_Some_elem_of. }
  apply elem_of_app. destruct Hw as [Hw|[->|Hw]%elem_of_cons]; [|by left..].
  assert (nbrs adj w ≠ []) as Hne'.
  { intros Hnil. by apply Hne, (consumes_nbrs_nil _ _ _ _ Hc). }
  specialize (Hp w Hw Hne'). rewrite (drop_S _ _ _ Hv) in Hp.
  apply elem_of_cons in Hp as [->|]; [by left|by right].
Qed.

(** Whatever the store, a scan that returns has spliced consumed closed
    walks into the tour, and has left no entry at a vertex of the tour. *)
Lemma scan_Ok fuel i t adj t' adj' :
  scan fuel i t adj = Ok (t', adj') →
  ∃ es, consumes adj adj' es ∧ steps t' ≡ₚ steps t ++ es ∧
        head t' = head t ∧ last t' = last t ∧
        length t' = length t + length es ∧
        (pending i t adj → ∀ v, v ∈ t' → nbrs adj' v = []).
Proof.
  revert i t adj. induction fuel as [|fuel IH]; intros i t adj Hrun.
  all: destruct (t !! i) as [v|] eqn:Hv.
  2,4: rewrite scan_end in Hrun by done; injection Hrun as <- <-; exists [];
    split_and!; [apply consumes_refl|by rewrite (right_id [] (++))|done..| |];
    [simpl; lia|];
    intros Hp w Hw; destruct (decide (nbrs adj w = [])) as [|Hne]; [done|];
    specialize (Hp w Hw Hne); apply lookup_ge_None in Hv;
    rewrite drop_ge in Hp by done; by inversion Hp.
  - by rewrite (scan_0 _ _ v) in Hrun.
  - rewrite (scan_S _ _ _ v) in Hrun by done.
    destruct (adj !! v) as [l|] eqn:Hl; [|done].
    case_decide as Hlen.
    + destruct (hierholzer_tour v adj) as [[v_tour adj1]| |] eqn:Hsub; [|done..].
      apply hierholzer_tour_Ok in Hsub as (Hc & Hh & Hla & Hlen2).
      destruct (IH _ _ _ Hrun) as (es & Hc' & Hst & Hh' & Hl' & Hlen' & Hpost).
      exists (steps v_tour ++ es). split_and!.
      * by apply (consumes_trans _ adj1).
      * rewrite Hst, (splice_steps _ v) by done. by rewrite (assoc (++)).
      * by rewrite Hh', (splice_head _ v).
      * by rewrite Hl', (splice_last _ v).
      * rewrite Hlen', (splice_length _ v), length_app, length_steps by done. lia.
      * intros Hp. apply Hpost. by apply (pending_splice _ _ v _ adj).
    + destruct (IH _ _ _ Hrun) as (es & Hc' & Hst & Hh' & Hl' & Hlen' & Hpost).
      exists es. split_and!; [done..|].
      intros Hp. apply Hpost. apply (pending_skip _ _ v); [done| |done].
      rewrite (nbrs_lookup _ _ _ Hl). destruct l; [done|]. simpl in Hlen. lia.
Qed.

Lemma scan_fuel fuel i t adj :
  length t - i + adj_size adj < fuel → scan fuel i t adj ≠ OutOfFuel.
Proof.
  revert i t adj. induction fuel as [|fuel IH]; intros i t adj Hm; [lia|].
  destruct (t !! i) as [v|] eqn:Hv; [|by rewrite scan_end].
  pose proof (lookup_lt_Some _ _ _ Hv) as Hlt.
  rewrite (scan_S _ _ _ v) by done.
  destruct (adj !! v) as [l|] eqn:Hl; [|done].
  case_decide as Hlen; [|apply IH; lia].
  destruct (hierholzer_tour v adj) as [[v_tour adj1]| |] eqn:Hsub; [|done|].
  - apply hierholzer_tour_Ok in Hsub as (Hc & Hh & Hla & Hlen2).
    apply IH. rewrite (splice_length _ v) by done.
    destruct Hc as [_ _ S _]. rewrite length_steps in S. lia.
  - by apply hierholzer_tour_fuel in Hsub.
Qed.

Lemma scan_total fuel i t adj :
  store_ok adj →
  (∀ v, v ∈ t → is_Some (adj !! v)) →
  length t - i + adj_size adj < fuel →
  ∃ t' adj', scan fuel i t adj = Ok (t', adj') ∧ store_ok adj'.
Proof.
  revert i t adj. induction fuel as [|fuel IH]; intros i t adj Hok Hdom Hm; [lia|].
  destruct (t !! i) as [v|] eqn:Hv; [|rewrite scan_end by done; eauto].
  pose proof (lookup_lt_Some _ _ _ Hv) as Hlt.
  rewrite (scan_S _ _ _ v) by done.
  destruct (Hdom v) as [l Hl]; [by eapply list_elem_of_lookup_2|].
  rewrite Hl. case_decide as Hlen; [|apply IH; [done..|lia]].
  destruct (hierholzer_tour_total v adj) as (v_tour & adj1 & Hsub & Hok1); [done| |].
  { rewrite (nbrs_lookup _ _ _ Hl). by destruct l. }
  rewrite Hsub. apply hierholzer_tour_Ok in Hsub as (Hc & Hh & Hla & Hlen2).
  apply IH; [done| |].
  - intros w Hw. apply (consumes_dom _ _ _ Hc).
    apply (elem_of_splice _ v) in Hw as [Hw|Hw]; [by apply Hdom| |done..].
    destruct (elem_of_steps_from _ _ Hw Hlen2) as [b [Hb|Hb]];
      by destruct (consumes_keys _ _ _ Hc _ _ Hb).
  - rewrite (splice_length _ v) by done.
    destruct Hc as [_ _ S _]. rewrite length_steps in S. lia.
Qed.

(** ** Valid inputs *)

Lemma steps_zip x l y : steps (x :: l ++ [y]) = zip (x :: l) (l ++ [y]).
Proof.
  revert x. induction l as [|a l IH]; intros x; [done|].
  change (steps (x :: (a :: l) ++ [y])) with ((x, a) :: steps (a :: l ++ [y])).
  by rewrite IH.
Qed.

(** A closed walk lists the steps of the cycle it goes around. *)
Lemma steps_cyclic t s :
  head t = Some s → last t = Some s → 2 ≤ length t →
  steps t = cyclic_steps (removelast t).
Proof.
  intros Hh Hl Hlen. destruct t as [|x t]; [done|]. injection Hh as ->.
  destruct t as [|y t _] using rev_ind; [simpl in Hlen; lia|].
  rewrite app_comm_cons, last_snoc in Hl. injection Hl as ->.
  rewrite app_comm_cons, removelast_last. simpl. apply steps_zip.
Qed.

Lemma hierholzer_body_unfold vs v0 adj :
  vs !! 0 = Some v0 →
  hierholzer_body vs adj =
    match hierholzer_tour v0 adj with
    | Ok (tour, adj') => scan (S (length tour + adj_size adj')) 0 tour adj'
    | Raise e => Raise e
    | OutOfFuel => OutOfFuel
    end.
Proof.
  intros H. unfold hierholzer_body. rewrite H, bind_unfold.
  by destruct (hierholzer_tour v0 adj) as [[tour adj']| |].
Qed.

Lemma hierholzer_unfold g :
  hierholzer g =
    match hierholzer_run g with
    | Ok (tour, _) => Ok tour
    | Raise e => Raise e
    | OutOfFuel => OutOfFuel
    end.
Proof. done. Qed.

(** On a valid graph with an edge, the first vertex has an edge. *)
Lemma start_has_edge g :
  euler_graph g → has_edge g →
  ∃ v0, vertices g !! 0 = Some v0 ∧ nbrs (adj_list g) v0 ≠ [].
Proof.
  intros Hg [u Hu].
  assert (u ∈ vertices g) as Huv.
  { by apply (eg_vertices _ Hg), nbrs_is_Some. }
  destruct (vertices g) as [|v0 vs] eqn:Hvs; [by inversion Huv|].
  exists v0. split; [done|].
  assert (v0 ∈ vertices g) as Hv0 by (rewrite Hvs; left).
  rewrite <- Hvs in Huv.
  destruct (rtc_inv _ _ (eg_connected _ Hg v0 u Hv0 Huv))
    as [->|(w & Hadj & _)]; [done|].
  intros Hnil. unfold adjacent in Hadj. rewrite Hnil in Hadj. by inversion Hadj.
Qed.

(** The run of [hierholzer] on a valid graph with an edge: it returns, the
    tour is a closed walk from the first vertex, it goes along every edge
    once, and the working copy of the adjacency is used up. *)
Lemma hierholzer_run_correct g :
  euler_graph g → has_edge g →
  ∃ v0 tour adj',
    vertices g !! 0 = Some v0 ∧
    hierholzer_run g = Ok (tour, adj') ∧
    consumes (adj_list g) adj' (steps tour) ∧
    head tour = Some v0 ∧ last tour = Some v0 ∧ 2 ≤ length tour ∧
    ∀ u, nbrs adj' u = [].
Proof.
  intros Hg He.
  destruct (start_has_edge g Hg He) as (v0 & Hv0 & Hne).
  assert (store_ok (adj_list g)) as Hok by (destruct Hg; by split).
  destruct (hierholzer_tour_total v0 (adj_list g) Hok Hne)
    as (t0 & adj1 & Hsub & Hok1).
  pose proof (hierholzer_tour_Ok _ _ _ _ Hsub) as (Hc0 & Hh0 & Hl0 & Hlen0).
  destruct (scan_total (S (length t0 + adj_size adj1)) 0 t0 adj1)
    as (tour & adj' & Hscan & Hok'); [done| |lia|].
  { intros w Hw. apply (consumes_dom _ _ _ Hc0).
    destruct (elem_of_steps_from _ _ Hw Hlen0) as [b [Hb|Hb]];
      by destruct (consumes_keys _ _ _ Hc0 _ _ Hb). }
  pose proof (scan_Ok _ _ _ _ _ _ Hscan)
    as (es & Hc1 & Hst & Hh & Hl & Hlen & Hpost).
  assert (consumes (adj_list g) adj' (steps tour)) as Hc.
  { apply (consumes_perm _ _ (steps t0 ++ es)); [done|].
    by apply (consumes_trans _ adj1). }
  assert (∀ v, v ∈ tour → nbrs adj' v = []) as Hdone.
  { apply Hpost. intros v Hv _. by rewrite drop_0. }
  exists v0, tour, adj'. split_and!; [done| |done| | | |].
  - unfold hierholzer_run, deepcopy.
    by rewrite (hierholzer_body_unfold _ v0), Hsub.
  - by rewrite Hh.
  - by rewrite Hl.
  - lia.
  - (* every vertex that can be reached from the start is on the tour *)
    assert (∀ w, rtc (adjacent (adj_list g)) v0 w → w ∈ tour) as Hreach.
    { apply rtc_ind_r.
      - apply head_Some_elem_of. by rewrite Hh.
      - intros y z _ Hrt IH. unfold adjacent in Hrt.
        rewrite (consumes_nbrs _ _ _ Hc y), (Hdone y IH) in Hrt.
        rewrite (right_id [] (++)) in Hrt.
        apply elem_of_used in Hrt as [H|H]; by apply elem_of_steps in H as [? ?]. }
    intros u. destruct (nbrs adj' u) as [|x l] eqn:Hu; [done|].
    assert (nbrs (adj_list g) u ≠ []) as Hu0.
    { intros Hnil. rewrite (consumes_nbrs_nil _ _ _ _ Hc Hnil) in Hu. done. }
    assert (u ∈ tour) as Hut.
    { apply Hreach, (eg_connected _ Hg).
      - by eapply list_elem_of_lookup_2.
      - by apply (eg_vertices _ Hg), nbrs_is_Some. }
    rewrite (Hdone u Hut) in Hu. done.
Qed.

(** ** A checker for valid inputs *)

Lemma reach_sound adj n u v : v ∈ reach adj n u → rtc (adjacent adj) u v.
Proof.
  revert v. induction n as [|n IH]; intros v; simpl.
  - by intros ->%list_elem_of_singleton.
  - rewrite elem_of_remove_dups, elem_of_app, list_elem_of_bind.
    intros [?|(w & Hv & Hw)]; [by apply IH|].
    apply rtc_r with w; [by apply IH|done].
Qed.

Lemma check_even_sound adj : check_even adj = true → even_degree adj.
Proof.
  unfold check_even. rewrite bool_decide_eq_true. intros He u. unfold nbrs.
  destruct (adj !! u) as [l|] eqn:Hl; [|by exists 0].
  apply Nat.even_spec, (He u l Hl).
Qed.

Lemma check_loops_sound adj : check_loops adj = true → loops_paired adj.
Proof.
  unfold check_loops. rewrite bool_decide_eq_true. intros He u. unfold nbrs.
  destruct (adj !! u) as [l|] eqn:Hl; [|by exists 0].
  apply Nat.even_spec, (He u l Hl).
Qed.

Lemma check_symmetric_sound adj : check_symmetric adj = true → symmetric adj.
Proof.
  unfold check_symmetric. rewrite bool_decide_eq_true. intros He.
  assert (∀ u v, v ∈ nbrs adj u → occ v (nbrs adj u) = occ u (nbrs adj v))
    as Hhalf.
  { intros u v Hin. unfold nbrs in Hin |- * at 1.
    destruct (adj !! u) as [l|] eqn:Hl; [|by inversion Hin].
    simpl in *. by apply (proj1 (Forall_forall _ _) (He u l Hl)). }
  intros u v.
  destruct (decide (v ∈ nbrs adj u)) as [Hin|Hn]; [by apply Hhalf|].
  destruct (decide (u ∈ nbrs adj v)) as [Hin'|Hn']; [symmetry; by apply Hhalf|].
  rewrite <- occ_pos in Hn, Hn'. lia.
Qed.

Lemma check_graph_sound g : check_graph g = true → euler_graph g.
Proof.
  unfold check_graph, check_vertices, check_connected.
  rewrite !andb_true_iff, !bool_decide_eq_true.
  intros [[[[Hv Hs] Hl] He] Hc]. split.
  - intros v. rewrite <- elem_of_dom, <- Hv. by rewrite elem_of_list_to_set.
  - by apply check_symmetric_sound.
  - by apply check_loops_sound.
  - by apply check_even_sound.
  - intros u v Hu Hv'.
    apply (reach_sound _ (length (vertices g))).
    rewrite Forall_forall in Hc. specialize (Hc u Hu).
    rewrite Forall_forall in Hc. by apply Hc.
Qed.

Lemma graph3_valid : euler_graph graph3 ∧ has_edge graph3.
Proof.
  split; [by apply check_graph_sound; vm_compute|].
  exists "a"%string. by vm_compute.
Qed.

Lemma graph5_valid : euler_graph graph5 ∧ has_edge graph5.
Proof.
  split; [by apply check_graph_sound; vm_compute|].
  exists "a"%string. by vm_compute.
Qed.

Lemma graph_K1_valid : euler_graph graph_K1.
Proof. by apply check_graph_sound; vm_compute. Qed.

Lemma half_double n : 2 * n / 2 = n.
Proof. rewrite Nat.mul_comm. by apply Nat.div_mul. Qed.

Lemma consumed_edges g tour adj' u v :
  consumes (adj_list g) adj' (steps tour) → (∀ w, nbrs adj' w = []) →
  tour_edges tour u v = graph_edges g u v.
Proof.
  intros Hc Hnil. unfold tour_edges, graph_edges.
  case_decide as Huv.
  - rewrite (consumes_occ _ _ _ u u Hc), Hnil, occ_nil.
    replace (occ (u, u) (steps tour) + occ (u, u) (steps tour) + 0)
      with (2 * occ (u, u) (steps tour)) by lia.
    by rewrite half_double.
  - rewrite (consumes_occ _ _ _ u v Hc), Hnil, occ_nil. lia.
Qed.

Lemma hierholzer_of_run g tour adj' :
  hierholzer_run g = Ok (tour, adj') → hierholzer g = Ok tour.
Proof. intros H. by rewrite hierholzer_unfold, H. Qed.

Lemma hierholzer_K1 : hierholzer graph_K1 = Raise IndexError.
Proof. by vm_compute. Qed.

(** The tours of three of the graphs of [main], with the adjacency lists
    in the order of the input strings. *)
Example hierholzer_graph3 :
  hierholzer graph3 = Ok ["a"; "d"; "c"; "b"; "a"]%string.
Proof. by vm_compute. Qed.

Example hierholzer_graph2 :
  hierholzer graph2
  = Ok ["a"; "f"; "d"; "e"; "b"; "d"; "c"; "b"; "a"]%string.
Proof. by vm_compute. Qed.

Example hierholzer_graph5 :
  hierholzer graph5
  = Ok ["a"; "f"; "d"; "c"; "b"; "a"; "c"; "e"; "a"; "h"; "g"; "f"; "e";
        "d"; "i"; "c"; "h"; "b"; "g"; "a"]%string.
Proof. by vm_compute. Qed.

Example h_hierholzer_heap3 :
  (h_hierholzer ref3 heap3).1 = Ok ["a"; "d"; "c"; "b"; "a"]%string.
Proof. by vm_compute. Qed.

(** The budgets of the two loops are never exhausted, whatever the input. *)
Lemma hierholzer_terminates g : hierholzer g ≠ OutOfFuel.
Proof.
  rewrite hierholzer_unfold. unfold hierholzer_run, deepcopy.
  destruct (vertices g !! 0) as [v0|] eqn:Hv0.
  - rewrite (hierholzer_body_unfold _ v0) by done.
    destruct (hierholzer_tour v0 (adj_list g)) as [[t adj1]| |] eqn:Hsub;
      [|done|by apply hierholzer_tour_fuel in Hsub].
    destruct (scan _ 0 t adj1) as [[t' adj']| |] eqn:Hscan; [done..|].
    apply scan_fuel in Hscan; [done|lia].
  - unfold hierholzer_body. by rewrite Hv0.
Qed.

Lemma tour_loop_steps fuel s nxt t adj t' adj' :
  tour_loop fuel s nxt t adj = Ok (t', adj') → rtc step_rel adj adj'.
Proof.
  revert nxt t adj. induction fuel as [|fuel IH]; intros nxt t adj Hrun.
  all: destruct (decide (nxt = s)) as [->|Hne].
  1,3: rewrite tour_loop_done in Hrun; by injection Hrun as <- <-.
  - by rewrite tour_loop_0 in Hrun.
  - rewrite tour_loop_S in Hrun by done.
    destruct (tour_step nxt adj) as [[nxt' adj1]| |] eqn:Hstep; [|done..].
    apply rtc_l with adj1; [by exists nxt, nxt'|by eapply IH].
Qed.

Lemma hierholzer_tour_steps s adj t adj' :
  hierholzer_tour s adj = Ok (t, adj') → rtc step_rel adj adj'.
Proof.
  rewrite hierholzer_tour_unfold.
  destruct (tour_step s adj) as [[nxt adj1]| |] eqn:Hstep; [|done..].
  intros Hrun. apply rtc_l with adj1; [by exists s, nxt|].
  by eapply tour_loop_steps.
Qed.

Lemma scan_steps fuel i t adj t' adj' :
  scan fuel i t adj = Ok (t', adj') → rtc step_rel adj adj'.
Proof.
  revert i t adj. induction fuel as [|fuel IH]; intros i t adj Hrun.
  all: destruct (t !! i) as [v|] eqn:Hv.
  2,4: rewrite scan_end in Hrun by done; by injection Hrun as <- <-.
  - by rewrite (scan_0 _ _ v) in Hrun.
  - rewrite (scan_S _ _ _ v) in Hrun by done.
    destruct (adj !! v) as [l|]; [|done].
    case_decide; [|by eapply IH].
    destruct (hierholzer_tour v adj) as [[v_tour adj1]| |] eqn:Hsub; [|done..].
    etrans; [by eapply hierholzer_tour_steps|by eapply IH].
Qed.

(** ** What a run leaves untouched *)

Lemma keeps_ret {A} I (a : A) (Q : A → Prop) : Q a → keeps I (mret a) Q.
Proof. intros HQ h HI. split; [done|]. by intros a' [= <-]. Qed.

Lemma keeps_raise {A} I e (Q : A → Prop) : keeps I (h_raise e) Q.
Proof. intros h HI. split; [done|]. by intros a [=]. Qed.

Lemma keeps_out_of_fuel {A} I (Q : A → Prop) : keeps I h_out_of_fuel Q.
Proof. intros h HI. split; [done|]. by intros a [=]. Qed.

Lemma keeps_bind {A B} I (m : HM A) (f : A → HM B) P Q :
  keeps I m P → (∀ a, P a → keeps I (f a) Q) → keeps I (m ≫= f) Q.
Proof.
  intros Hm Hf h HI. destruct (Hm h HI) as [HI' HP].
  unfold mbind, HM_bind. destruct (m h) as [[a|e|] h']; simpl in *.
  - by apply (Hf a (HP a eq_refl)).
  - split; [done|]. by intros a [=].
  - split; [done|]. by intros a [=].
Qed.

Lemma keeps_weaken {A} I (c : HM A) (P Q : A → Prop) :
  keeps I c P → (∀ a, P a → Q a) → keeps I c Q.
Proof. intros Hc HPQ h HI. destruct (Hc h HI). split; [done|]. auto. Qed.

Lemma keeps_read {A} I (f : gmap positive obj → A) :
  keeps I (h_read f) (λ _, True).
Proof. intros h HI. by split. Qed.

Lemma keeps_dict I d : keeps I (h_dict d) (λ _, True).
Proof.
  intros h HI. unfold h_dict. destruct (dict_at h d); by split.
Qed.

Lemma keeps_list I l : keeps I (h_list l) (λ _, True).
Proof.
  intros h HI. unfold h_list. destruct (list_at h l); by split.
Qed.

Lemma dict_at_insert_ne h d l o :
  l ≠ d → dict_at (<[l := o]> h) d = dict_at h d.
Proof. intros. unfold dict_at. by rewrite lookup_insert_ne. Qed.

Lemma list_at_insert_ne h l l' o :
  l' ≠ l → list_at (<[l' := o]> h) l = list_at h l.
Proof. intros. unfold list_at. by rewrite lookup_insert_ne. Qed.

Lemma list_at_insert_eq h l xs : list_at (<[l := OList xs]> h) l = Some xs.
Proof. unfold list_at. by rewrite lookup_insert_eq. Qed.

Lemma keeps_store_owned h0 d' l o :
  owned h0 d' l → keeps (frame_inv h0 d') (h_store l o) (λ _, True).
Proof.
  intros [Hl Hne] h (Hsub & m' & Hd & Hown). split; [|done]. simpl. split.
  - by apply insert_subseteq_r.
  - exists m'. by rewrite dict_at_insert_ne.
Qed.

Lemma keeps_getitem h0 d' k :
  keeps (frame_inv h0 d') (h_getitem d' k) (owned h0 d').
Proof.
  intros h HI. pose proof HI as (Hsub & m' & Hd & Hown).
  unfold h_getitem, h_dict, mbind, HM_bind. rewrite Hd.
  destruct (m' !! k) as [l|] eqn:Hk; simpl.
  - split; [done|]. intros a [= <-]. by apply (Hown k).
  - split; [done|]. by intros a [=].
Qed.

Lemma keeps_pop h0 d' l :
  owned h0 d' l → keeps (frame_inv h0 d') (h_pop l) (λ _, True).
Proof.
  intros Hl. unfold h_pop. eapply keeps_bind; [apply keeps_list|].
  intros xs _. destruct (list_pop xs) as [[x xs']|]; [|apply keeps_raise].
  eapply keeps_bind; [by apply keeps_store_owned|].
  intros _ _. by apply keeps_ret.
Qed.

Lemma keeps_remove h0 d' l x :
  owned h0 d' l → keeps (frame_inv h0 d') (h_remove l x) (λ _, True).
Proof.
  intros Hl. unfold h_remove. eapply keeps_bind; [apply keeps_list|].
  intros xs _. destruct (list_remove x xs) as [xs'|]; [|apply keeps_raise].
  by apply keeps_store_owned.
Qed.

Lemma keeps_len I l : keeps I (h_len l) (λ _, True).
Proof.
  unfold h_len. eapply keeps_bind; [apply keeps_list|].
  intros xs _. by apply keeps_ret.
Qed.

Lemma keeps_tour_step h0 d' cur :
  keeps (frame_inv h0 d') (h_tour_step d' cur) (λ _, True).
Proof.
  unfold h_tour_step, h_adj_pop, h_adj_remove.
  eapply keeps_bind.
  { eapply keeps_bind; [apply keeps_getitem|]. intros l Hl. by apply keeps_pop. }
  intros nxt _. eapply keeps_bind.
  { eapply keeps_bind; [apply keeps_getitem|].
    intros l Hl. by apply keeps_remove. }
  intros _ _. by apply keeps_ret.
Qed.

Lemma keeps_tour_loop h0 d' fuel s nxt t :
  keeps (frame_inv h0 d') (h_tour_loop fuel d' s nxt t) (λ _, True).
Proof.
  revert nxt t. induction fuel as [|fuel IH]; intros nxt t; simpl;
    case_decide; try by apply keeps_ret.
  - apply keeps_out_of_fuel.
  - eapply keeps_bind; [apply keeps_tour_step|]. intros nxt' _. apply IH.
Qed.

Lemma keeps_get_size I d : keeps I (h_get_size d) (λ _, True).
Proof.
  unfold h_get_size. eapply keeps_bind; [apply keeps_dict|].
  intros m _. apply keeps_read.
Qed.

Lemma keeps_hierholzer_tour h0 d' s :
  keeps (frame_inv h0 d') (h_hierholzer_tour d' s) (λ _, True).
Proof.
  unfold h_hierholzer_tour.
  eapply keeps_bind; [apply keeps_tour_step|]. intros nxt _.
  eapply keeps_bind; [apply keeps_get_size|]. intros fuel _.
  apply keeps_tour_loop.
Qed.

Lemma keeps_scan h0 d' fuel i t :
  keeps (frame_inv h0 d') (h_scan fuel d' i t) (λ _, True).
Proof.
  revert i t. induction fuel as [|fuel IH]; intros i t; simpl;
    destruct (t !! i) as [v|]; try by apply keeps_ret.
  - apply keeps_out_of_fuel.
  - eapply keeps_bind.
    { unfold h_adj_len. eapply keeps_bind; [apply keeps_getitem|].
      intros l _. apply keeps_len. }
    intros n _. case_decide; [|apply IH].
    eapply keeps_bind; [apply keeps_hierholzer_tour|]. intros v_tour _.
    apply IH.
Qed.

Lemma hbind_unfold {A B} (m : HM A) (f : A → HM B) h :
  (m ≫= f) h =
    match m h with
    | (Ok a, h') => f a h'
    | (Raise e, h') => (Raise e, h')
    | (OutOfFuel, h') => (OutOfFuel, h')
    end.
Proof. done. Qed.

Lemma fresh_lookup (h : gmap positive obj) : h !! fresh (dom h) = None.
Proof. apply not_elem_of_dom, is_fresh. Qed.

Lemma copy_values_frame h0 d' kvs memo macc h :
  h0 ⊆ h → is_Some (h !! d') →
  (∀ l l', memo !! l = Some l' → owned h0 d' l') →
  (∀ k l', macc !! k = Some l' → owned h0 d' l') →
  h0 ⊆ (copy_values kvs memo macc h).2 ∧
  (copy_values kvs memo macc h).2 !! d' = h !! d' ∧
  ∀ m', (copy_values kvs memo macc h).1 = Ok m' →
        ∀ k l', m' !! k = Some l' → owned h0 d' l'.
Proof.
  revert memo macc h. induction kvs as [|[k l] kvs IH];
    intros memo macc h Hsub Hd Hmemo Hacc; simpl.
  { split_and!; [done..|]. by intros m' [= <-]. }
  destruct (memo !! l) as [l'|] eqn:Hl.
  { apply IH; [done..|]. intros k' l''.
    rewrite lookup_insert. case_decide; [intros [= <-]; eauto|eauto]. }
  rewrite hbind_unfold. unfold h_list.
  destruct (list_at h l) as [xs|]; [|by split_and!].
  rewrite hbind_unfold. unfold h_alloc.
  pose proof (fresh_lookup h) as Hfresh. set (l' := fresh (dom h)) in *.
  assert (owned h0 d' l') as Hown.
  { split; [by eapply lookup_weaken_None|]. intros ->.
    rewrite Hfresh in Hd. by destruct Hd. }
  destruct (IH (<[l := l']> memo) (<[k := l']> macc) (<[l' := OList xs]> h))
    as (H1 & H2 & H3).
  - destruct Hown. by apply insert_subseteq_r.
  - destruct Hown. by rewrite lookup_insert_ne.
  - intros l1 l1'. rewrite lookup_insert.
    case_decide; [intros [= <-]; eauto|eauto].
  - intros k1 l1'. rewrite lookup_insert.
    case_decide; [intros [= <-]; eauto|eauto].
  - split_and!; [done| |done]. rewrite H2. destruct Hown.
    by rewrite lookup_insert_ne.
Qed.

Lemma deepcopy_frame d h0 :
  h0 ⊆ (h_deepcopy d h0).2 ∧
  ∀ d', (h_deepcopy d h0).1 = Ok d' → frame_inv h0 d' (h_deepcopy d h0).2.
Proof.
  unfold h_deepcopy. rewrite hbind_unfold. unfold h_dict.
  destruct (dict_at h0 d) as [m|]; [|by split].
  rewrite hbind_unfold. unfold h_alloc.
  pose proof (fresh_lookup h0) as Hfresh. set (d' := fresh (dom h0)) in *.
  rewrite hbind_unfold.
  destruct (copy_values_frame h0 d' (map_to_list m) ∅ ∅ (<[d' := ODict ∅]> h0))
    as (H1 & H2 & H3).
  { by apply insert_subseteq_r. }
  { rewrite lookup_insert_eq. eauto. }
  { intros ??. by rewrite lookup_empty. }
  { intros ??. by rewrite lookup_empty. }
  destruct (copy_values (map_to_list m) ∅ ∅ (<[d' := ODict ∅]> h0))
    as [[m'|e|] h2]; simpl in *; [|by split..].
  assert (h0 ⊆ <[d' := ODict m']> h2) as Hsub by (by apply insert_subseteq_r).
  split; [done|]. intros d'' [= <-]. split; [done|].
  exists m'. split; [|by apply H3].
  unfold dict_at. by rewrite lookup_insert_eq.
Qed.

(** The objects of the store [hierholzer] is called on are all there
    afterwards, each as it was. *)
Lemma h_hierholzer_frame r h : h ⊆ (h_hierholzer r h).2.
Proof.
  unfold h_hierholzer. rewrite hbind_unfold.
  destruct (deepcopy_frame (ref_adj_list r) h) as [Hsub Hinv].
  destruct (h_deepcopy (ref_adj_list r) h) as [[d'|e|] h1]; simpl in *;
    [|done..].
  specialize (Hinv d' eq_refl).
  eapply (keeps_bind (frame_inv h d') _ _ (λ _, True) (λ _, True));
    [apply keeps_list| |done].
  intros vs _. destruct (vs !! 0) as [v0|]; [|apply keeps_raise].
  eapply keeps_bind; [apply keeps_hierholzer_tour|]. intros tour _.
  eapply keeps_bind; [apply keeps_get_size|]. intros fuel _.
  exact (keeps_scan h d' (S (length tour + fuel)) 0 tour).
Qed.

(** ** The run on the store and the run on the adjacency it holds *)

Lemma sim_ret {A} d (a : A) : sim d (mret a) (mret a).
Proof. intros h adj Hh. simpl. by exists h. Qed.

Lemma sim_raise {A} d e : sim (A := A) d (h_raise e) (raise e).
Proof. intros h adj Hh. simpl. by exists h. Qed.

Lemma sim_out_of_fuel {A} d : sim (A := A) d h_out_of_fuel out_of_fuel.
Proof. intros h adj Hh. simpl. by exists h. Qed.

Lemma sim_bind {A B} d (mh : HM A) (mp : M A) (fh : A → HM B) (fp : A → M B) :
  sim d mh mp → (∀ a, sim d (fh a) (fp a)) → sim d (mh ≫= fh) (mp ≫= fp).
Proof.
  intros Hm Hf h adj Hh. specialize (Hm h adj Hh).
  rewrite bind_unfold. destruct (mp adj) as [[a adj1]|e|].
  - destruct Hm as (h1 & Hrun & Hh1). rewrite hbind_unfold, Hrun.
    apply (Hf a h1 adj1 Hh1).
  - destruct Hm as (h1 & Hrun). exists h1. by rewrite hbind_unfold, Hrun.
  - destruct Hm as (h1 & Hrun). exists h1. by rewrite hbind_unfold, Hrun.
Qed.

Lemma holds_adj_lookup h d adj m k :
  dict_at h d = Some m → adj = abs_adj h m →
  adj !! k = m !! k ≫= list_at h.
Proof. intros _ ->. apply lookup_omap. Qed.

Lemma list_dict_ne h l d xs m :
  list_at h l = Some xs → dict_at h d = Some m → l ≠ d.
Proof.
  unfold list_at, dict_at. intros Hl Hd ->.
  destruct (h !! d) as [[?|?]|]; done.
Qed.

(** Replacing the list object of the key [k] replaces the entry of [k]. *)
Lemma holds_adj_update h d adj m k l xs xs' :
  holds_adj h d adj → dict_at h d = Some m →
  m !! k = Some l → list_at h l = Some xs →
  holds_adj (<[l := OList xs']> h) d (<[k := xs']> adj).
Proof.
  intros (m0 & Hd0 & Hinj & Hlists & ->) Hd Hk Hl.
  rewrite Hd in Hd0. injection Hd0 as <-.
  pose proof (list_dict_ne _ _ _ _ _ Hl Hd) as Hne.
  exists m. split_and!; [by rewrite dict_at_insert_ne|done| |].
  - intros k2 l2 Hk2. destruct (decide (l = l2)) as [<-|Hl2].
    + rewrite list_at_insert_eq. eauto.
    + rewrite list_at_insert_ne by done. by eapply Hlists.
  - apply map_eq. intros k2. unfold abs_adj. rewrite lookup_omap.
    destruct (decide (k = k2)) as [<-|Hk2].
    + rewrite lookup_insert_eq, Hk. simpl. by rewrite list_at_insert_eq.
    + rewrite lookup_insert_ne, lookup_omap by done.
      destruct (m !! k2) as [l2|] eqn:Hm2; [|done]. simpl.
      rewrite list_at_insert_ne; [done|].
      intros <-. apply Hk2. by apply (Hinj k k2 l).
Qed.

Lemma sim_adj_pop d k : sim d (h_adj_pop d k) (adj_pop k).
Proof.
  intros h adj Hh. pose proof Hh as (m & Hd & Hinj & Hlists & Habs).
  unfold adj_pop, adj_get. rewrite bind_unfold.
  unfold h_adj_pop, h_getitem, h_dict. rewrite !hbind_unfold, Hd.
  rewrite (holds_adj_lookup h d adj m k Hd Habs).
  destruct (m !! k) as [l|] eqn:Hk; simpl; [|by exists h].
  destruct (Hlists k l Hk) as [xs Hl]. rewrite Hl.
  unfold h_pop, h_list. rewrite hbind_unfold, Hl.
  destruct (list_pop xs) as [[x xs']|]; simpl; [|by exists h].
  eexists. split; [done|]. by apply (holds_adj_update h d adj m k l xs).
Qed.

Lemma sim_adj_remove d k x : sim d (h_adj_remove d k x) (adj_remove k x).
Proof.
  intros h adj Hh. pose proof Hh as (m & Hd & Hinj & Hlists & Habs).
  unfold adj_remove, adj_get. rewrite bind_unfold.
  unfold h_adj_remove, h_getitem, h_dict. rewrite !hbind_unfold, Hd.
  rewrite (holds_adj_lookup h d adj m k Hd Habs).
  destruct (m !! k) as [l|] eqn:Hk; simpl; [|by exists h].
  destruct (Hlists k l Hk) as [xs Hl]. rewrite Hl.
  unfold h_remove, h_list. rewrite hbind_unfold, Hl.
  destruct (list_remove x xs) as [xs'|]; simpl; [|by exists h].
  eexists. split; [done|]. by apply (holds_adj_update h d adj m k l xs).
Qed.

Lemma sim_adj_len d k : sim d (h_adj_len d k) (adj_len k).
Proof.
  intros h adj Hh. pose proof Hh as (m & Hd & Hinj & Hlists & Habs).
  unfold adj_len, adj_get. rewrite bind_unfold.
  unfold h_adj_len, h_getitem, h_dict. rewrite !hbind_unfold, Hd.
  rewrite (holds_adj_lookup h d adj m k Hd Habs).
  destruct (m !! k) as [l|] eqn:Hk; simpl; [|by exists h].
  destruct (Hlists k l Hk) as [xs Hl]. rewrite Hl.
  unfold h_len, h_list. rewrite hbind_unfold, Hl. simpl. by exists h.
Qed.

Lemma sim_get_size d : sim d (h_get_size d) get_size.
Proof.
  intros h adj Hh. pose proof Hh as (m & Hd & Hinj & Hlists & Habs).
  unfold get_size, h_get_size, h_dict, h_read. rewrite hbind_unfold, Hd.
  subst adj. by exists h.
Qed.

Lemma sim_tour_step d cur : sim d (h_tour_step d cur) (tour_step cur).
Proof.
  unfold h_tour_step, tour_step.
  apply sim_bind; [apply sim_adj_pop|]. intros nxt.
  apply sim_bind; [apply sim_adj_remove|]. intros _. apply sim_ret.
Qed.

Lemma sim_tour_loop d fuel s nxt t :
  sim d (h_tour_loop fuel d s nxt t) (tour_loop fuel s nxt t).
Proof.
  revert nxt t. induction fuel as [|fuel IH]; intros nxt t; simpl;
    case_decide; try apply sim_ret.
  - apply sim_out_of_fuel.
  - apply sim_bind; [apply sim_tour_step|]. intros nxt'. apply IH.
Qed.

Lemma sim_hierholzer_tour d s :
  sim d (h_hierholzer_tour d s) (hierholzer_tour s).
Proof.
  unfold h_hierholzer_tour, hierholzer_tour.
  apply sim_bind; [apply sim_tour_step|]. intros nxt.
  apply sim_bind; [apply sim_get_size|]. intros fuel.
  apply sim_tour_loop.
Qed.

Lemma sim_scan d fuel i t : sim d (h_scan fuel d i t) (scan fuel i t).
Proof.
  revert i t. induction fuel as [|fuel IH]; intros i t; simpl;
    destruct (t !! i) as [v|]; try apply sim_ret.
  - apply sim_out_of_fuel.
  - apply sim_bind; [apply sim_adj_len|]. intros n.
    case_decide; [|apply IH].
    apply sim_bind; [apply sim_hierholzer_tour|]. intros v_tour. apply IH.
Qed.

(** ** The deep copy *)

Lemma list_at_fresh (h : gmap positive obj) : list_at h (fresh (dom h)) = None.
Proof. unfold list_at. by rewrite fresh_lookup. Qed.

Lemma list_at_weaken h h' l xs :
  h ⊆ h' → list_at h l = Some xs → list_at h' l = Some xs.
Proof.
  unfold list_at. intros Hsub Hl.
  destruct (h !! l) as [o|] eqn:Ho; [|done].
  by rewrite (lookup_weaken _ _ _ _ Ho Hsub).
Qed.

Lemma dict_at_weaken h h' d m :
  h ⊆ h' → dict_at h d = Some m → dict_at h' d = Some m.
Proof.
  unfold dict_at. intros Hsub Hd.
  destruct (h !! d) as [o|] eqn:Ho; [|done].
  by rewrite (lookup_weaken _ _ _ _ Ho Hsub).
Qed.

Lemma copy_values_spec kvs memo macc h :
  NoDup (kvs.*1) → NoDup (kvs.*2) →
  (∀ k l, (k, l) ∈ kvs → is_Some (list_at h l) ∧ memo !! l = None) →
  (∀ k1 k2 l, macc !! k1 = Some l → macc !! k2 = Some l → k1 = k2) →
  (∀ k l, macc !! k = Some l → is_Some (list_at h l)) →
  ∃ m' h',
    copy_values kvs memo macc h = (Ok m', h') ∧
    (∀ k1 k2 l, m' !! k1 = Some l → m' !! k2 = Some l → k1 = k2) ∧
    (∀ k l, m' !! k = Some l → is_Some (list_at h' l)) ∧
    (∀ k l, (k, l) ∈ kvs → m' !! k ≫= list_at h' = list_at h l) ∧
    (∀ k, k ∉ kvs.*1 → m' !! k ≫= list_at h' = macc !! k ≫= list_at h).
Proof.
  revert memo macc h. induction kvs as [|[k l] kvs IH];
    intros memo macc h Hnd1 Hnd2 Hsrc Hinj Hlists; simpl.
  { exists macc, h. split_and!; [done..| |done]. by inversion 1. }
  apply NoDup_cons in Hnd1 as [Hk Hnd1]. apply NoDup_cons in Hnd2 as [Hl Hnd2].
  simpl in Hk, Hl.
  destruct (Hsrc k l) as [[xs Hxs] Hmemo]; [left|].
  rewrite Hmemo, hbind_unfold. unfold h_list. rewrite Hxs.
  rewrite hbind_unfold. unfold h_alloc.
  pose proof (list_at_fresh h) as Hfresh. set (l' := fresh (dom h)) in *.
  assert (∀ l2, is_Some (list_at h l2) →
                list_at (<[l' := OList xs]> h) l2 = list_at h l2) as Hkeep.
  { intros l2 [ys Hys]. apply list_at_insert_ne. intros <-. congruence. }
  destruct (IH (<[l := l']> memo) (<[k := l']> macc) (<[l' := OList xs]> h))
    as (m' & h' & Hrun & Hinj' & Hlists' & Hcopied & Hrest); [done..| | | |].
  - intros k2 l2 Hin. destruct (Hsrc k2 l2) as [Hl2 Hm2]; [by right|].
    split; [by rewrite Hkeep|]. rewrite lookup_insert_ne; [done|].
    intros ->. apply Hl. apply list_elem_of_fmap. by exists (k2, l2).
  - intros k1 k2 l2. rewrite !lookup_insert.
    repeat case_decide; simplify_eq; try done.
    + intros [= <-] H2. destruct (Hlists _ _ H2) as [? ?]. congruence.
    + intros H1 [= <-]. destruct (Hlists _ _ H1) as [? ?]. congruence.
    + apply Hinj.
  - intros k2 l2. rewrite lookup_insert. case_decide.
    + intros [= <-]. rewrite list_at_insert_eq. eauto.
    + intros H2. rewrite Hkeep; by eapply Hlists.
  - exists m', h'. split_and!; [done..| |].
    + intros k2 l2 [[= -> ->]|Hin]%elem_of_cons.
      * rewrite (Hrest k Hk), lookup_insert_eq. simpl.
        by rewrite list_at_insert_eq.
      * rewrite (Hcopied k2 l2 Hin). apply Hkeep.
        by destruct (Hsrc k2 l2); [right|].
    + intros k3 Hk3. apply not_elem_of_cons in Hk3 as [Hne Hk3].
      rewrite (Hrest k3 Hk3), lookup_insert_ne by done.
      destruct (macc !! k3) as [l3|] eqn:H3; [|done]. simpl.
      apply Hkeep. by eapply Hlists.
Qed.

Lemma deepcopy_spec h d adj :
  holds_adj h d adj →
  ∃ d' h', h_deepcopy d h = (Ok d', h') ∧ holds_adj h' d' adj.
Proof.
  intros (m & Hd & Hinj & Hlists & ->).
  unfold h_deepcopy. rewrite hbind_unfold. unfold h_dict. rewrite Hd.
  rewrite hbind_unfold. unfold h_alloc.
  pose proof (fresh_lookup h) as Hfresh. set (d' := fresh (dom h)) in *.
  set (h1 := <[d' := ODict ∅]> h).
  assert (∀ l, is_Some (list_at h l) → list_at h1 l = list_at h l) as Hkeep.
  { intros l [ys Hys]. apply list_at_insert_ne. intros <-.
    unfold list_at in Hys. by rewrite Hfresh in Hys. }
  destruct (copy_values_spec (map_to_list m) ∅ ∅ h1)
    as (m' & h2 & Hrun & Hinj' & Hlists' & Hcopied & Hrest).
  { apply NoDup_fst_map_to_list. }
  { apply NoDup_fmap_2_strong; [|apply NoDup_map_to_list].
    intros [k1 l1] [k2 l2] H1%elem_of_map_to_list H2%elem_of_map_to_list.
    simpl. intros <-. f_equal. by apply (Hinj k1 k2 l1). }
  { intros k l Hin%elem_of_map_to_list. split; [|done].
    rewrite Hkeep; by eapply Hlists. }
  { intros k1 k2 l. by rewrite lookup_empty. }
  { intros k l. by rewrite lookup_empty. }
  destruct (copy_values_frame ∅ d' (map_to_list m) ∅ ∅ h1) as (_ & Hd' & Hown).
  { apply map_empty_subseteq. }
  { unfold h1. rewrite lookup_insert_eq. eauto. }
  { intros ??. by rewrite lookup_empty. }
  { intros ??. by rewrite lookup_empty. }
  rewrite hbind_unfold, Hrun in *. simpl in Hd', Hown.
  rewrite hbind_unfold. simpl.
  exists d', (<[d' := ODict m']> h2). split; [done|].
  assert (∀ k l, m' !! k = Some l →
                 list_at (<[d' := ODict m']> h2) l = list_at h2 l) as Hkeep'.
  { intros k l Hk. apply list_at_insert_ne.
    destruct (Hown m' eq_refl k l Hk) as [_ ?]. done. }
  exists m'. split_and!.
  - unfold dict_at. by rewrite lookup_insert_eq.
  - done.
  - intros k l Hk. rewrite (Hkeep' k l Hk). by eapply Hlists'.
  - apply map_eq. intros k. unfold abs_adj. rewrite !lookup_omap.
    assert (m' !! k ≫= list_at (<[d' := ODict m']> h2)
            = m' !! k ≫= list_at h2) as ->.
    { destruct (m' !! k) as [l|] eqn:Hk; [|done]. simpl. by eapply Hkeep'. }
    destruct (m !! k) as [l|] eqn:Hk; simpl.
    + rewrite (Hcopied k l) by (by apply elem_of_map_to_list).
      symmetry. apply Hkeep. by eapply Hlists.
    + rewrite Hrest; [by rewrite lookup_empty|].
      intros ([k' l'] & -> & Hin%elem_of_map_to_list)%list_elem_of_fmap.
      simpl in Hk. congruence.
Qed.

Lemma holds_adj_weaken h h' d adj :
  h ⊆ h' → holds_adj h d adj → holds_adj h' d adj.
Proof.
  intros Hsub (m & Hd & Hinj & Hlists & ->). exists m. split_and!.
  - by eapply dict_at_weaken.
  - done.
  - intros k l Hk. destruct (Hlists k l Hk) as [xs Hxs].
    exists xs. by eapply list_at_weaken.
  - apply map_eq. intros k. unfold abs_adj. rewrite !lookup_omap.
    destruct (m !! k) as [l|] eqn:Hk; [|done]. simpl.
    destruct (Hlists k l Hk) as [xs Hxs].
    by rewrite Hxs, (list_at_weaken _ _ _ _ Hsub Hxs).
Qed.

Lemma represents_weaken h h' r g :
  h ⊆ h' → represents h r g → represents h' r g.
Proof.
  intros Hsub [Hv Ha]. split.
  - by eapply list_at_weaken.
  - by eapply holds_adj_weaken.
Qed.

(** On a store that holds the graph [g], [hierholzer] has the outcome
    computed from [g], and the store still holds [g] afterwards. *)
Lemma h_hierholzer_sim h r g :
  represents h r g →
  (h_hierholzer r h).1 = hierholzer g ∧ represents (h_hierholzer r h).2 r g.
Proof.
  intros Hrep.
  split; [|exact (represents_weaken h _ r g (h_hierholzer_frame r h) Hrep)].
  destruct Hrep as [Hv Ha].
  destruct (deepcopy_frame (ref_adj_list r) h) as [Hsub _].
  unfold h_hierholzer. rewrite hbind_unfold.
  destruct (deepcopy_spec _ _ _ Ha) as (d' & h1 & Hcopy & Ha1).
  rewrite Hcopy in *. simpl in Hsub.
  rewrite hbind_unfold. unfold h_list.
  rewrite (list_at_weaken _ _ _ _ Hsub Hv).
  rewrite hierholzer_unfold. unfold hierholzer_run, hierholzer_body, deepcopy.
  destruct (vertices g !! 0) as [v0|]; [|done].
  pose proof (sim_bind d' _ _ _ _ (sim_hierholzer_tour d' v0)
    (λ tour, sim_bind d' _ _ _ _ (sim_get_size d')
       (λ fuel, sim_scan d' (S (length tour + fuel)) 0 tour))) as Hsim.
  specialize (Hsim h1 (adj_list g) Ha1). cbv beta in Hsim.
  destruct (_ ≫= _) as [[tour adj']|e|] in Hsim |- *.
  - destruct Hsim as (h' & -> & _). done.
  - destruct Hsim as (h' & ->). done.
  - destruct Hsim as (h' & ->). done.
Qed.

Lemma NoDup_fmap_eq {A B} (f : A → B) (l : list A) x y :
  NoDup (f <$> l) → x ∈ l → y ∈ l → f x = f y → x = y.
Proof.
  induction l as [|a l IH]; [by inversion 2|]. csimpl.
  intros [Ha Hnd]%NoDup_cons [->|Hx]%elem_of_cons [->|Hy]%elem_of_cons Hf;
    [done| | |by apply IH].
  - destruct Ha. rewrite Hf. apply list_elem_of_fmap. by exists y.
  - destruct Ha. rewrite <- Hf. apply list_elem_of_fmap. by exists x.
Qed.

Lemma check_represents_sound h r g :
  check_represents h r g = true → represents h r g.
Proof.
  unfold check_represents. rewrite andb_true_iff, bool_decide_eq_true.
  intros [Hv Hd]. split; [done|].
  destruct (dict_at h (ref_adj_list r)) as [m|] eqn:Hm; [|done].
  rewrite !andb_true_iff, !bool_decide_eq_true in Hd.
  destruct Hd as [[Hnd Hl] Ha]. exists m. split_and!; [done| |done|done].
  intros k1 k2 l H1%elem_of_map_to_list H2%elem_of_map_to_list.
  assert ((k1, l) = (k2, l)) as [= ->]; [|done].
  by apply (NoDup_fmap_eq snd (map_to_list m)).
Qed.

Lemma hierholzer_euler_tour g :
  euler_graph g → has_edge g → ∃ tour, hierholzer g = Ok tour ∧ euler_tour g tour.
Proof.
  intros Hg He.
  destruct (hierholzer_run_correct g Hg He)
    as (v0 & tour & adj' & _ & Hrun & Hc & Hh & Hl & Hlen & Hnil).
  exists tour. split; [by apply (hierholzer_of_run _ _ adj')|].
  split_and!.
  - rewrite Hh. eauto.
  - by rewrite Hh, Hl.
  - intros u v. by apply (consumed_edges _ _ adj').
  - unfold num_edges. rewrite (consumes_size _ _ _ Hc).
    rewrite (adj_size_empty adj' Hnil), Nat.add_0_r, half_double, length_steps.
    lia.
Qed.

(** * Main theorems *)

(** C1 (amended): for every connected graph with even degrees and at least
    one edge, [hierholzer] returns a tour whose consecutive pairs, taken as
    undirected edges, are exactly the edges of the graph, each as often as
    the graph has it.  The pairs are those of the returned sequence: the
    step that closes the tour is the last of them, so they are the steps,
    wraparound included, of the cycle the tour goes around. *)
Theorem hierholzer_edge_complete (g : Graph) :
  euler_graph g → has_edge g →
  ∃ tour, hierholzer g = Ok tour ∧
          (∀ u v, tour_edges tour u v = graph_edges g u v) ∧
          steps tour = cyclic_steps (removelast tour).
Proof.
  intros Hg He.
  destruct (hierholzer_run_correct g Hg He)
    as (v0 & tour & adj' & _ & Hrun & Hc & Hh & Hl & Hlen & Hnil).
  exists tour. split_and!.
  - by apply (hierholzer_of_run _ _ adj').
  - intros u v. by apply (consumed_edges _ _ adj').
  - by apply (steps_cyclic _ v0).
Qed.

Lemma hierholzer_edge_complete_witness :
  euler_graph graph5 ∧ has_edge graph5 ∧
  ∃ tour, hierholzer graph5 = Ok tour ∧
          (∀ u v, tour_edges tour u v = graph_edges graph5 u v) ∧
          steps tour = cyclic_steps (removelast tour).
Proof.
  assert (euler_graph graph5) as Hg
    by (apply check_graph_sound; vm_compute; reflexivity).
  assert (has_edge graph5) as He
    by (exists "a"%string; vm_compute; discriminate).
  split_and!; [done..|]. apply (hierholzer_edge_complete graph5 Hg He).
Defined.

(** C1 fails as stated on the graph with one vertex and no edge: it is
    connected and its only degree is 0, and [hierholzer] raises
    [IndexError] on it, so no tour is returned. *)
Lemma hierholzer_edge_complete_counterexample :
  euler_graph graph_K1 ∧
  hierholzer graph_K1 = Raise IndexError ∧
  ¬ ∃ tour, hierholzer graph_K1 = Ok tour ∧
            ∀ u v, tour_edges tour u v = graph_edges graph_K1 u v.
Proof.
  split_and!; [apply graph_K1_valid|apply hierholzer_K1|].
  intros (tour & H & _). by rewrite hierholzer_K1 in H.
Qed.

(** C2 (amended): for every connected graph with even degrees and at least
    one edge, the first and the last element of the tour [hierholzer]
    returns are equal. *)
Theorem hierholzer_closed (g : Graph) :
  euler_graph g → has_edge g →
  ∃ tour, hierholzer g = Ok tour ∧
          is_Some (head tour) ∧ head tour = last tour.
Proof.
  intros Hg He.
  destruct (hierholzer_run_correct g Hg He)
    as (v0 & tour & adj' & _ & Hrun & Hc & Hh & Hl & Hlen & Hnil).
  exists tour. split_and!; [by apply (hierholzer_of_run _ _ adj')|..].
  - rewrite Hh. eauto.
  - by rewrite Hh, Hl.
Qed.

Lemma hierholzer_closed_witness :
  euler_graph graph3 ∧ has_edge graph3 ∧
  ∃ tour, hierholzer graph3 = Ok tour ∧
          is_Some (head tour) ∧ head tour = last tour.
Proof.
  assert (euler_graph graph3) as Hg
    by (apply check_graph_sound; vm_compute; reflexivity).
  assert (has_edge graph3) as He
    by (exists "a"%string; vm_compute; discriminate).
  split_and!; [done..|]. apply (hierholzer_closed graph3 Hg He).
Defined.

(** C2 fails as stated on the graph with one vertex and no edge, a valid
    input on which no tour is returned. *)
Lemma hierholzer_closed_counterexample :
  euler_graph graph_K1 ∧
  ¬ ∃ tour, hierholzer graph_K1 = Ok tour ∧ head tour = last tour.
Proof.
  split; [apply graph_K1_valid|].
  intros (tour & H & _). by rewrite hierholzer_K1 in H.
Qed.

(** C3 (amended): for every connected graph with even degrees and at least
    one edge, the tour [hierholzer] returns has |E| + 1 elements. *)
Theorem hierholzer_length (g : Graph) :
  euler_graph g → has_edge g →
  ∃ tour, hierholzer g = Ok tour ∧ length tour = num_edges g + 1.
Proof.
  intros Hg He.
  destruct (hierholzer_run_correct g Hg He)
    as (v0 & tour & adj' & _ & Hrun & Hc & Hh & Hl & Hlen & Hnil).
  exists tour. split; [by apply (hierholzer_of_run _ _ adj')|].
  unfold num_edges. rewrite (consumes_size _ _ _ Hc).
  rewrite (adj_size_empty adj' Hnil), Nat.add_0_r, half_double, length_steps.
  lia.
Qed.

Lemma hierholzer_length_witness :
  euler_graph graph5 ∧ has_edge graph5 ∧
  ∃ tour, hierholzer graph5 = Ok tour ∧ length tour = num_edges graph5 + 1.
Proof.
  assert (euler_graph graph5) as Hg
    by (apply check_graph_sound; vm_compute; reflexivity).
  assert (has_edge graph5) as He
    by (exists "a"%string; vm_compute; discriminate).
  split_and!; [done..|]. apply (hierholzer_length graph5 Hg He).
Defined.

(** C3 fails as stated on the graph with one vertex and no edge: |E| + 1
    is 1 there, and no sequence is returned. *)
Lemma hierholzer_length_counterexample :
  euler_graph graph_K1 ∧ num_edges graph_K1 + 1 = 1 ∧
  ¬ ∃ tour, hierholzer graph_K1 = Ok tour ∧
            length tour = num_edges graph_K1 + 1.
Proof.
  split_and!; [apply graph_K1_valid|by vm_compute|].
  intros (tour & H & _). by rewrite hierholzer_K1 in H.
Qed.

(** C4 (amended): on a symmetric store in which every vertex has even
    remaining degree, from a vertex [s] with an unused edge,
    [hierholzer_tour] returns a closed walk from [s] to [s] along unused
    edges, and the store it leaves is the given one with, for every step
    of the walk, one entry removed at each of the two ends. *)
Theorem hierholzer_tour_closed_walk
    (adj : gmap string (list string)) (s : string) :
  store_ok adj → nbrs adj s ≠ [] →
  ∃ tour adj',
    hierholzer_tour s adj = Ok (tour, adj') ∧
    head tour = Some s ∧ last tour = Some s ∧ 2 ≤ length tour ∧
    (∀ a b, (a, b) ∈ steps tour → b ∈ nbrs adj a) ∧
    (∀ u v, occ v (nbrs adj u)
            = occ (u, v) (steps tour) + occ (v, u) (steps tour)
              + occ v (nbrs adj' u)) ∧
    adj_size adj = 2 * (length tour - 1) + adj_size adj'.
Proof.
  intros Hok Hne.
  destruct (hierholzer_tour_total s adj Hok Hne) as (tour & adj' & Hrun & _).
  pose proof (hierholzer_tour_Ok _ _ _ _ Hrun) as (Hc & Hh & Hl & Hlen).
  exists tour, adj'. split_and!; [done..| | |].
  - intros a b Hab. rewrite (consumes_nbrs _ _ _ Hc a), elem_of_app.
    left. apply elem_of_used. by left.
  - intros u v. by apply consumes_occ.
  - rewrite <- length_steps. apply (consumes_size _ _ _ Hc).
Qed.

Lemma hierholzer_tour_closed_walk_witness :
  store_ok (adj_list graph3) ∧ nbrs (adj_list graph3) "a" ≠ [] ∧
  ∃ tour adj',
    hierholzer_tour "a" (adj_list graph3) = Ok (tour, adj') ∧
    head tour = Some "a"%string ∧ last tour = Some "a"%string ∧
    2 ≤ length tour ∧
    (∀ a b, (a, b) ∈ steps tour → b ∈ nbrs (adj_list graph3) a) ∧
    (∀ u v, occ v (nbrs (adj_list graph3) u)
            = occ (u, v) (steps tour) + occ (v, u) (steps tour)
              + occ v (nbrs adj' u)) ∧
    adj_size (adj_list graph3) = 2 * (length tour - 1) + adj_size adj'.
Proof.
  assert (euler_graph graph3) as Hg
    by (apply check_graph_sound; vm_compute; reflexivity).
  assert (store_ok (adj_list graph3)) as Hok by (destruct Hg; by split).
  assert (nbrs (adj_list graph3) "a" ≠ []) as Hne
    by (vm_compute; discriminate).
  split_and!; [done..|].
  apply (hierholzer_tour_closed_walk (adj_list graph3) "a" Hok Hne).
Defined.

(** C4 fails as stated on the store of the path a - b, which is symmetric:
    "a" has an unused edge, the walk goes to "b" and finds no edge to
    leave it.  It also fails on a store with even degrees that is not
    symmetric: the entry to remove at the other end is not there. *)
Lemma hierholzer_tour_closed_walk_counterexample :
  (symmetric (adj_list graph_path) ∧
   nbrs (adj_list graph_path) "a" ≠ [] ∧
   hierholzer_tour "a" (adj_list graph_path) = Raise IndexError) ∧
  (even_degree (adj_list graph_oneway) ∧
   nbrs (adj_list graph_oneway) "a" ≠ [] ∧
   hierholzer_tour "a" (adj_list graph_oneway) = Raise ValueError).
Proof.
  split; split_and!; try by vm_compute.
  - by apply check_symmetric_sound; vm_compute.
  - by apply check_even_sound; vm_compute.
Qed.

(** C5: when [v] is at position [v_index] of the master tour and the
    sub-tour starts and ends at [v], the insertion loop turns the master
    tour into its part before [v_index], then the sub-tour, then its part
    after [v_index]; the length grows by the length of the sub-tour minus
    one, and a closed tour stays closed. *)
Theorem splice_replaces (v_index : nat) (v : string)
    (v_tour tour : list string) :
  tour !! v_index = Some v → head v_tour = Some v → last v_tour = Some v →
  splice v_index v_tour tour
    = take v_index tour ++ v_tour ++ drop (S v_index) tour ∧
  length (splice v_index v_tour tour) = length tour + (length v_tour - 1) ∧
  (head tour = last tour →
   head (splice v_index v_tour tour) = last (splice v_index v_tour tour)).
Proof.
  intros Hv Hh Hl. split_and!.
  - by apply (splice_spec _ v).
  - rewrite (splice_length _ v) by done. destruct v_tour; [done|]. simpl. lia.
  - intros Hc. by rewrite (splice_head _ v), (splice_last _ v).
Qed.

Lemma splice_replaces_witness :
  tour_abca !! 1 = Some "b"%string ∧
  head tour_bdeb = Some "b"%string ∧
  last tour_bdeb = Some "b"%string ∧
  splice 1 tour_bdeb tour_abca
    = take 1 tour_abca ++ tour_bdeb ++ drop 2 tour_abca ∧
  length (splice 1 tour_bdeb tour_abca)
    = length tour_abca + (length tour_bdeb - 1) ∧
  (head tour_abca = last tour_abca →
   head (splice 1 tour_bdeb tour_abca) = last (splice 1 tour_bdeb tour_abca)).
Proof.
  split_and!; [reflexivity..| | |];
    apply (splice_replaces 1 "b" tour_bdeb tour_abca eq_refl eq_refl eq_refl).
Defined.

(** C6: on a symmetric store with even remaining degrees, a walk of
    [hierholzer_tour] cannot get stuck at a vertex other than its start:
    it returns a walk that is back at [s], after at most as many steps as
    the store has edges, and it fails only when [s] itself had no edge to
    begin with.  The scan of [hierholzer] ends, and when it does no vertex
    of the master tour has an unused edge left. *)
Theorem walk_returns_and_scan_ends (adj : gmap string (list string)) :
  store_ok adj →
  (∀ s, match hierholzer_tour s adj with
        | Ok (tour, adj') =>
            head tour = Some s ∧ last tour = Some s ∧
            2 * (length tour - 1) ≤ adj_size adj
        | Raise _ => nbrs adj s = []
        | OutOfFuel => False
        end) ∧
  (∀ tour, (∀ v, v ∈ tour → is_Some (adj !! v)) →
     ∃ tour' adj',
       scan (S (length tour + adj_size adj)) 0 tour adj = Ok (tour', adj') ∧
       ∀ v, v ∈ tour' → nbrs adj' v = []).
Proof.
  intros Hok. split.
  - intros s. destruct (hierholzer_tour s adj) as [[tour adj']|e|] eqn:Hrun.
    + apply hierholzer_tour_Ok in Hrun as (Hc & Hh & Hl & Hlen).
      split_and!; [done..|]. pose proof (consumes_size _ _ _ Hc) as Hsz.
      rewrite length_steps in Hsz. lia.
    + destruct (nbrs adj s) as [|x l] eqn:Hn; [done|].
      destruct (hierholzer_tour_total s adj Hok) as (t & adj' & Hrun' & _);
        [by rewrite Hn|congruence].
    + by apply hierholzer_tour_fuel in Hrun.
  - intros tour Hdom.
    destruct (scan_total (S (length tour + adj_size adj)) 0 tour adj)
      as (tour' & adj' & Hscan & _); [done..|lia|].
    exists tour', adj'. split; [done|].
    apply scan_Ok in Hscan as (es & _ & _ & _ & _ & _ & Hpost).
    apply Hpost. intros v Hv _. by rewrite drop_0.
Qed.

Lemma walk_returns_and_scan_ends_witness :
  store_ok (adj_list graph5) ∧
  (∀ s, match hierholzer_tour s (adj_list graph5) with
        | Ok (tour, adj') =>
            head tour = Some s ∧ last tour = Some s ∧
            2 * (length tour - 1) ≤ adj_size (adj_list graph5)
        | Raise _ => nbrs (adj_list graph5) s = []
        | OutOfFuel => False
        end) ∧
  (∀ tour, (∀ v, v ∈ tour → is_Some (adj_list graph5 !! v)) →
     ∃ tour' adj',
       scan (S (length tour + adj_size (adj_list graph5))) 0 tour
            (adj_list graph5) = Ok (tour', adj') ∧
       ∀ v, v ∈ tour' → nbrs adj' v = []).
Proof.
  assert (euler_graph graph5) as Hg
    by (apply check_graph_sound; vm_compute; reflexivity).
  assert (store_ok (adj_list graph5)) as Hok by (destruct Hg; by split).
  split; [done|]. apply (walk_returns_and_scan_ends (adj_list graph5) Hok).
Defined.

(** C7: every object of the store [hierholzer] is called on, the dict and
    the lists of the Graph among them, is the same after the call, since
    the lists that are mutated are those of the deep copy; so the store
    still holds the same graph, a second call computes from the same
    graph, and on a connected graph with even degrees and an edge both
    calls return a tour that is closed, goes along every edge once and
    has length |E| + 1. *)
Theorem hierholzer_keeps_graph (h : gmap positive obj) (r : GraphRef) :
  (∀ l o, h !! l = Some o → (h_hierholzer r h).2 !! l = Some o) ∧
  (∀ g, represents h r g →
        represents (h_hierholzer r h).2 r g ∧
        (h_hierholzer r h).1 = hierholzer g ∧
        (h_hierholzer r (h_hierholzer r h).2).1 = hierholzer g ∧
        (euler_graph g → has_edge g →
         ∃ tour1 tour2,
           (h_hierholzer r h).1 = Ok tour1 ∧
           (h_hierholzer r (h_hierholzer r h).2).1 = Ok tour2 ∧
           euler_tour g tour1 ∧ euler_tour g tour2)).
Proof.
  split.
  - intros l o Hl. by apply (lookup_weaken _ _ _ _ Hl), h_hierholzer_frame.
  - intros g Hrep.
    destruct (h_hierholzer_sim h r g Hrep) as [Hout Hrep'].
    destruct (h_hierholzer_sim _ r g Hrep') as [Hout' _].
    split_and!; [done..|]. intros Hg He.
    destruct (hierholzer_euler_tour g Hg He) as (tour & Hrun & Htour).
    exists tour, tour. by rewrite Hout, Hout'.
Qed.

Lemma hierholzer_keeps_graph_witness :
  represents heap3 ref3 graph3 ∧ euler_graph graph3 ∧ has_edge graph3 ∧
  (∀ l o, heap3 !! l = Some o → (h_hierholzer ref3 heap3).2 !! l = Some o) ∧
  represents (h_hierholzer ref3 heap3).2 ref3 graph3 ∧
  ∃ tour1 tour2,
    (h_hierholzer ref3 heap3).1 = Ok tour1 ∧
    (h_hierholzer ref3 (h_hierholzer ref3 heap3).2).1 = Ok tour2 ∧
    euler_tour graph3 tour1 ∧ euler_tour graph3 tour2.
Proof.
  assert (represents heap3 ref3 graph3) as Hrep
    by (apply check_represents_sound; vm_compute; reflexivity).
  assert (euler_graph graph3) as Hg
    by (apply check_graph_sound; vm_compute; reflexivity).
  assert (has_edge graph3) as He
    by (exists "a"%string; vm_compute; discriminate).
  destruct (hierholzer_keeps_graph heap3 ref3) as [Hframe Hruns].
  destruct (Hruns graph3 Hrep) as (Hrep' & _ & _ & Htours).
  split_and!; [done..|]. by apply Htours.
Defined.

(** C8: when the number of entries for [v] at [u] equals the number of
    entries for [u] at [v] for all [u] and [v], this is so again after
    every edge removal step, which takes one entry out at each end; hence
    in every store the algorithm goes through, step after step, up to the
    one [hierholzer_tour] and the one [hierholzer] leave. *)
Theorem symmetry_invariant (adj : gmap string (list string)) :
  symmetric adj →
  (∀ cur nxt adj', tour_step cur adj = Ok (nxt, adj') → symmetric adj') ∧
  (∀ adj', rtc step_rel adj adj' → symmetric adj') ∧
  (∀ s tour adj', hierholzer_tour s adj = Ok (tour, adj') →
                  rtc step_rel adj adj' ∧ symmetric adj') ∧
  (∀ vs tour adj', hierholzer_body vs adj = Ok (tour, adj') →
                   rtc step_rel adj adj' ∧ symmetric adj').
Proof.
  intros Hs.
  assert (∀ adj', rtc step_rel adj adj' → symmetric adj') as Hrtc.
  { intros adj' Hr. induction Hr as [|a b c (cur & nxt & Hstep) _ IH]; [done|].
    apply IH. by apply (consumes_symmetric _ _ _ (tour_step_Ok _ _ _ _ Hstep)). }
  split_and!; [|done| |].
  - intros cur nxt adj' Hstep.
    by apply (consumes_symmetric _ _ _ (tour_step_Ok _ _ _ _ Hstep)).
  - intros s tour adj' Hrun. apply hierholzer_tour_steps in Hrun. auto.
  - intros vs tour adj' Hrun.
    assert (rtc step_rel adj adj') as Hr; [|auto].
    destruct (vs !! 0) as [v0|] eqn:Hv0;
      [|unfold hierholzer_body in Hrun; by rewrite Hv0 in Hrun].
    rewrite (hierholzer_body_unfold _ v0) in Hrun by done.
    destruct (hierholzer_tour v0 adj) as [[t adj1]| |] eqn:Hsub; [|done..].
    etrans; [by eapply hierholzer_tour_steps|by eapply scan_steps].
Qed.

Lemma symmetry_invariant_witness :
  symmetric (adj_list graph5) ∧
  (∀ cur nxt adj', tour_step cur (adj_list graph5) = Ok (nxt, adj') →
                   symmetric adj') ∧
  (∀ adj', rtc step_rel (adj_list graph5) adj' → symmetric adj') ∧
  (∀ s tour adj', hierholzer_tour s (adj_list graph5) = Ok (tour, adj') →
                  rtc step_rel (adj_list graph5) adj' ∧ symmetric adj') ∧
  (∀ vs tour adj', hierholzer_body vs (adj_list graph5) = Ok (tour, adj') →
                   rtc step_rel (adj_list graph5) adj' ∧ symmetric adj').
Proof.
  assert (euler_graph graph5) as Hg
    by (apply check_graph_sound; vm_compute; reflexivity).
  split; [by destruct Hg|].
  apply (symmetry_invariant (adj_list graph5)). by destruct Hg.
Defined.

(** C9: called on a vertex without an unused edge, [hierholzer_tour]
    raises an exception, [IndexError] from the pop of the empty list (or
    [KeyError] when the vertex is not even a key), and returns no walk. *)
Theorem hierholzer_tour_no_edge
    (adj : gmap string (list string)) (s : string) :
  nbrs adj s = [] →
  hierholzer_tour s adj
    = Raise (if adj !! s is Some _ then IndexError else KeyError) ∧
  ∀ tour adj', hierholzer_tour s adj ≠ Ok (tour, adj').
Proof.
  intros Hnil.
  assert (hierholzer_tour s adj
          = Raise (if adj !! s is Some _ then IndexError else KeyError)) as H.
  { rewrite hierholzer_tour_unfold. unfold nbrs in Hnil.
    destruct (adj !! s) as [l|] eqn:Hs; simpl in Hnil.
    - subst l. by rewrite (tour_step_stuck _ _ Hs).
    - by rewrite (tour_step_no_key _ _ Hs). }
  split; [done|]. intros tour adj'. by rewrite H.
Qed.

Lemma hierholzer_tour_no_edge_witness :
  nbrs (adj_list graph_K1) "a" = [] ∧
  hierholzer_tour "a" (adj_list graph_K1) = Raise IndexError ∧
  ∀ tour adj', hierholzer_tour "a" (adj_list graph_K1) ≠ Ok (tour, adj').
Proof.
  split; [reflexivity|].
  apply (hierholzer_tour_no_edge (adj_list graph_K1) "a" eq_refl).
Defined.

(** C10 (amended): for every connected graph with even degrees and at
    least one edge, the tour [hierholzer] returns starts and ends at the
    first vertex of the vertex list; the graph is the only argument, and
    of its vertex list only the first element is used. *)
Theorem hierholzer_start (g : Graph) :
  euler_graph g → has_edge g →
  (∃ v0 tour, vertices g !! 0 = Some v0 ∧ hierholzer g = Ok tour ∧
              head tour = Some v0 ∧ last tour = Some v0) ∧
  (∀ g', vertices g' !! 0 = vertices g !! 0 → adj_list g' = adj_list g →
         hierholzer g' = hierholzer g).
Proof.
  intros Hg He. split.
  - destruct (hierholzer_run_correct g Hg He)
      as (v0 & tour & adj' & Hv0 & Hrun & Hc & Hh & Hl & Hlen & Hnil).
    exists v0, tour. split_and!; [done| |done..].
    by apply (hierholzer_of_run _ _ adj').
  - intros g' Hv Ha. unfold hierholzer, hierholzer_run, hierholzer_body.
    by rewrite Hv, Ha.
Qed.

Lemma hierholzer_start_witness :
  euler_graph graph3 ∧ has_edge graph3 ∧
  (∃ v0 tour, vertices graph3 !! 0 = Some v0 ∧ hierholzer graph3 = Ok tour ∧
              head tour = Some v0 ∧ last tour = Some v0) ∧
  (∀ g', vertices g' !! 0 = vertices graph3 !! 0 →
         adj_list g' = adj_list graph3 → hierholzer g' = hierholzer graph3).
Proof.
  assert (euler_graph graph3) as Hg
    by (apply check_graph_sound; vm_compute; reflexivity).
  assert (has_edge graph3) as He
    by (exists "a"%string; vm_compute; discriminate).
  split_and!; [done..| |]; by apply (hierholzer_start graph3 Hg He).
Defined.

(** C10 fails as stated on the graph with one vertex and no edge: its
    vertex list starts with "a", and no tour is returned. *)
Lemma hierholzer_start_counterexample :
  euler_graph graph_K1 ∧ vertices graph_K1 !! 0 = Some "a"%string ∧
  ¬ ∃ tour, hierholzer graph_K1 = Ok tour ∧ head tour = vertices graph_K1 !! 0.
Proof.
  split_and!; [apply graph_K1_valid|done|].
  intros (tour & H & _). by rewrite hierholzer_K1 in H.
Qed.

(** * Further properties of the program *)

(** ** The budget *)

Lemma tour_loop_budget f1 f2 s nxt t adj :
  adj_size adj < f1 → adj_size adj < f2 →
  tour_loop f1 s nxt t adj = tour_loop f2 s nxt t adj.
Proof.
  revert f2 nxt t adj. induction f1 as [|f1 IH]; intros f2 nxt t adj H1 H2;
    [lia|]. destruct f2 as [|f2]; [lia|].
  destruct (decide (nxt = s)) as [->|Hne]; [by rewrite !tour_loop_done|].
  rewrite !tour_loop_S by done.
  destruct (tour_step nxt adj) as [[nxt' adj1]| |] eqn:Hstep; [|done..].
  apply tour_step_Ok in Hstep as [_ _ S _]. simpl in S. apply IH; lia.
Qed.

Lemma scan_budget f1 f2 i t adj :
  length t - i + adj_size adj < f1 → length t - i + adj_size adj < f2 →
  scan f1 i t adj = scan f2 i t adj.
Proof.
  revert f2 i t adj. induction f1 as [|f1 IH]; intros f2 i t adj H1 H2; [lia|].
  destruct f2 as [|f2]; [lia|].
  destruct (t !! i) as [v|] eqn:Hv; [|by rewrite !scan_end].
  pose proof (lookup_lt_Some _ _ _ Hv) as Hlt.
  rewrite !(scan_S _ _ _ v) by done.
  destruct (adj !! v) as [l|] eqn:Hl; [|done].
  case_decide as Hlen; [|apply IH; lia].
  destruct (hierholzer_tour v adj) as [[v_tour adj1]| |] eqn:Hsub; [|done..].
  apply hierholzer_tour_Ok in Hsub as (Hc & Hh & Hla & Hlen2).
  destruct Hc as [_ _ S _]. rewrite length_steps in S.
  apply IH; rewrite (splice_length _ v) by done; lia.
Qed.

(** X1: the two loops end on every input, valid or not: a traversal step
    takes two entries out of the store, so the walk and the scan stop (by
    a return or an exception) within a budget given by the size of the
    store, and a larger budget does not change what they yield. *)
Theorem loops_end_on_every_input (g : Graph)
    (adj : gmap string (list string)) (s nxt : string)
    (t : list string) (i : nat) :
  hierholzer g ≠ OutOfFuel ∧
  hierholzer_tour s adj ≠ OutOfFuel ∧
  (∀ f, adj_size adj < f →
        tour_loop f s nxt t adj ≠ OutOfFuel ∧
        tour_loop f s nxt t adj = tour_loop (S (adj_size adj)) s nxt t adj) ∧
  (∀ f, length t - i + adj_size adj < f →
        scan f i t adj ≠ OutOfFuel ∧
        scan f i t adj = scan (S (length t - i + adj_size adj)) i t adj).
Proof.
  split_and!.
  - rewrite hierholzer_unfold. unfold hierholzer_run, deepcopy.
    destruct (vertices g !! 0) as [v0|] eqn:Hv0;
      [|unfold hierholzer_body; by rewrite Hv0].
    rewrite (hierholzer_body_unfold _ v0) by done.
    destruct (hierholzer_tour v0 (adj_list g)) as [[t0 adj1]| |] eqn:Hsub;
      [|done|by apply hierholzer_tour_fuel in Hsub].
    destruct (scan _ 0 t0 adj1) as [[t' adj']| |] eqn:Hscan; [done..|].
    apply scan_fuel in Hscan; [done|lia].
  - apply hierholzer_tour_fuel.
  - intros f Hf. split; [by apply tour_loop_fuel|].
    apply tour_loop_budget; lia.
  - intros f Hf. split; [by apply scan_fuel|]. apply scan_budget; lia.
Qed.

(** ** The tour on inputs that are not valid *)

Lemma hierholzer_run_Ok g tour adj' :
  hierholzer_run g = Ok (tour, adj') →
  ∃ v0, vertices g !! 0 = Some v0 ∧
        consumes (adj_list g) adj' (steps tour) ∧
        head tour = Some v0 ∧ last tour = Some v0 ∧ 2 ≤ length tour ∧
        ∀ v, v ∈ tour → nbrs adj' v = [].
Proof.
  unfold hierholzer_run, deepcopy.
  destruct (vertices g !! 0) as [v0|] eqn:Hv0;
    [|unfold hierholzer_body; by rewrite Hv0].
  rewrite (hierholzer_body_unfold _ v0) by done.
  destruct (hierholzer_tour v0 (adj_list g)) as [[t0 adj1]| |] eqn:Hsub;
    [|done..].
  intros Hscan. exists v0.
  apply hierholzer_tour_Ok in Hsub as (Hc0 & Hh0 & Hl0 & Hlen0).
  apply scan_Ok in Hscan as (es & Hc1 & Hst & Hh & Hl & Hlen & Hpost).
  split_and!; [done| | | | |].
  - apply (consumes_perm _ _ (steps t0 ++ es)); [done|].
    by apply (consumes_trans _ adj1).
  - by rewrite Hh.
  - by rewrite Hl.
  - lia.
  - apply Hpost. intros v Hv _. by rewrite drop_0.
Qed.

Lemma hierholzer_Ok_run g tour :
  hierholzer g = Ok tour → ∃ adj', hierholzer_run g = Ok (tour, adj').
Proof.
  rewrite hierholzer_unfold.
  destruct (hierholzer_run g) as [[t adj']| |]; [|done..].
  intros [= ->]. eauto.
Qed.

Lemma walk_reachable (R : relation string) t v0 :
  head t = Some v0 → (∀ a b, (a, b) ∈ steps t → R a b) →
  ∀ u, u ∈ t → rtc R v0 u.
Proof.
  revert v0. induction t as [|x [|y t] IH]; intros v0 Hh Hst u Hu;
    [by inversion Hu| |].
  - injection Hh as ->. by apply list_elem_of_singleton in Hu as ->.
  - injection Hh as ->. apply elem_of_cons in Hu as [->|Hu]; [done|].
    apply rtc_l with y; [apply Hst; rewrite steps_cons2; left|].
    apply IH; [done| |done]. intros a b Hab. apply Hst.
    rewrite steps_cons2. by right.
Qed.

(** X2: whatever the graph, valid or not, a tour that [hierholzer]
    returns starts and ends at the first vertex, goes only along entries of
    the adjacency lists, uses none of them more often than it is there,
    and uses up the entries of every vertex it visits. *)
Theorem hierholzer_returns_trail (g : Graph) (tour : list string) :
  hierholzer g = Ok tour →
  (∃ v0, vertices g !! 0 = Some v0 ∧ head tour = Some v0 ∧
         last tour = Some v0) ∧
  2 ≤ length tour ∧
  2 * (length tour - 1) ≤ adj_size (adj_list g) ∧
  (∀ a b, (a, b) ∈ steps tour → b ∈ nbrs (adj_list g) a) ∧
  (∀ u v, occ (u, v) (steps tour) + occ (v, u) (steps tour)
          ≤ occ v (nbrs (adj_list g) u)) ∧
  (∀ u v, u ∈ tour →
          occ (u, v) (steps tour) + occ (v, u) (steps tour)
          = occ v (nbrs (adj_list g) u)).
Proof.
  intros [adj' Hrun]%hierholzer_Ok_run.
  apply hierholzer_run_Ok in Hrun as (v0 & Hv0 & Hc & Hh & Hl & Hlen & Hdone).
  split_and!; [by exists v0|done| | | |].
  - pose proof (consumes_size _ _ _ Hc) as Hsz.
    rewrite length_steps in Hsz. lia.
  - intros a b Hab. rewrite (consumes_nbrs _ _ _ Hc a), elem_of_app.
    left. apply elem_of_used. by left.
  - intros u v. rewrite (consumes_occ _ _ _ u v Hc). lia.
  - intros u v Hu.
    rewrite (consumes_occ _ _ _ u v Hc), (Hdone u Hu), occ_nil. lia.
Qed.

Lemma hierholzer_returns_trail_witness :
  hierholzer graph_triangles = Ok ["a"; "c"; "b"; "a"]%string ∧
  (∃ v0, vertices graph_triangles !! 0 = Some v0 ∧
         head ["a"; "c"; "b"; "a"]%string = Some v0 ∧
         last ["a"; "c"; "b"; "a"]%string = Some v0) ∧
  2 ≤ length ["a"; "c"; "b"; "a"]%string ∧
  2 * (length ["a"; "c"; "b"; "a"]%string - 1)
    ≤ adj_size (adj_list graph_triangles) ∧
  (∀ a b, (a, b) ∈ steps ["a"; "c"; "b"; "a"]%string →
          b ∈ nbrs (adj_list graph_triangles) a) ∧
  (∀ u v, occ (u, v) (steps ["a"; "c"; "b"; "a"]%string)
          + occ (v, u) (steps ["a"; "c"; "b"; "a"]%string)
          ≤ occ v (nbrs (adj_list graph_triangles) u)) ∧
  (∀ u v, u ∈ ["a"; "c"; "b"; "a"]%string →
          occ (u, v) (steps ["a"; "c"; "b"; "a"]%string)
          + occ (v, u) (steps ["a"; "c"; "b"; "a"]%string)
          = occ v (nbrs (adj_list graph_triangles) u)).
Proof.
  assert (hierholzer graph_triangles = Ok ["a"; "c"; "b"; "a"]%string) as H
    by (vm_compute; reflexivity).
  split; [done|]. apply (hierholzer_returns_trail graph_triangles _ H).
Defined.

(** X3: connectivity is not checked and not needed for a result: on an
    undirected graph with even degrees whose first vertex has an edge,
    [hierholzer] returns a closed tour from the first vertex that visits
    exactly the vertices that can be reached from it, and goes along
    exactly the edges between them, each once; the rest of the graph is
    left out without an error. *)
Theorem hierholzer_component (g : Graph) (v0 : string) :
  store_ok (adj_list g) → vertices g !! 0 = Some v0 →
  nbrs (adj_list g) v0 ≠ [] →
  ∃ tour, hierholzer g = Ok tour ∧
          head tour = Some v0 ∧ last tour = Some v0 ∧
          (∀ u, u ∈ tour ↔ rtc (adjacent (adj_list g)) v0 u) ∧
          (∀ u v, u ∈ tour → tour_edges tour u v = graph_edges g u v) ∧
          (∀ u v, u ∉ tour → tour_edges tour u v = 0).
Proof.
  intros Hok Hv0 Hne.
  destruct (hierholzer_tour_total v0 (adj_list g) Hok Hne)
    as (t0 & adj1 & Hsub & Hok1).
  pose proof (hierholzer_tour_Ok _ _ _ _ Hsub) as (Hc0 & Hh0 & Hl0 & Hlen0).
  destruct (scan_total (S (length t0 + adj_size adj1)) 0 t0 adj1)
    as (tour & adj' & Hscan & Hok'); [done| |lia|].
  { intros w Hw. apply (consumes_dom _ _ _ Hc0).
    destruct (elem_of_steps_from _ _ Hw Hlen0) as [b [Hb|Hb]];
      by destruct (consumes_keys _ _ _ Hc0 _ _ Hb). }
  assert (hierholzer_run g = Ok (tour, adj')) as Hrun.
  { unfold hierholzer_run, deepcopy.
    by rewrite (hierholzer_body_unfold _ v0), Hsub. }
  pose proof (hierholzer_run_Ok _ _ _ Hrun)
    as (v0' & Hv0' & Hc & Hh & Hl & Hlen & Hdone).
  assert (v0' = v0) as -> by congruence.
  exists tour. split_and!; [by apply (hierholzer_of_run _ _ adj')|done..| | |].
  - intros u. split.
    + apply walk_reachable; [done|].
      intros a b Hab. unfold adjacent.
      rewrite (consumes_nbrs _ _ _ Hc a), elem_of_app.
      left. apply elem_of_used. by left.
    + revert u. apply rtc_ind_r.
      * apply head_Some_elem_of. by rewrite Hh.
      * intros y z _ Hrt IH. unfold adjacent in Hrt.
        rewrite (consumes_nbrs _ _ _ Hc y), (Hdone y IH) in Hrt.
        rewrite (right_id [] (++)) in Hrt.
        apply elem_of_used in Hrt as [H|H];
          by apply elem_of_steps in H as [? ?].
  - intros u v Hu. unfold tour_edges, graph_edges. case_decide as Huv.
    + rewrite (consumes_occ _ _ _ u u Hc), (Hdone u Hu), occ_nil.
      replace (occ (u, u) (steps tour) + occ (u, u) (steps tour) + 0)
        with (2 * occ (u, u) (steps tour)) by lia.
      by rewrite half_double.
    + rewrite (consumes_occ _ _ _ u v Hc), (Hdone u Hu), occ_nil. lia.
  - intros u v Hu. unfold tour_edges.
    assert (∀ a b, (a = u ∨ b = u) → occ (a, b) (steps tour) = 0) as Hz.
    { intros a b Hab. destruct (occ (a, b) (steps tour)) eqn:Ho; [done|].
      assert ((a, b) ∈ steps tour) as [? ?]%elem_of_steps
        by (apply occ_pos; lia).
      destruct Hab; by subst. }
    case_decide; rewrite ?Hz; auto.
Qed.

Lemma hierholzer_component_witness :
  store_ok (adj_list graph_triangles) ∧
  vertices graph_triangles !! 0 = Some "a"%string ∧
  nbrs (adj_list graph_triangles) "a" ≠ [] ∧
  ∃ tour, hierholzer graph_triangles = Ok tour ∧
          head tour = Some "a"%string ∧ last tour = Some "a"%string ∧
          (∀ u, u ∈ tour ↔ rtc (adjacent (adj_list graph_triangles)) "a" u) ∧
          (∀ u v, u ∈ tour →
                  tour_edges tour u v = graph_edges graph_triangles u v) ∧
          (∀ u v, u ∉ tour → tour_edges tour u v = 0).
Proof.
  assert (store_ok (adj_list graph_triangles)) as Hok.
  { split.
    - apply check_symmetric_sound; vm_compute; reflexivity.
    - apply check_loops_sound; vm_compute; reflexivity.
    - apply check_even_sound; vm_compute; reflexivity. }
  assert (nbrs (adj_list graph_triangles) "a" ≠ []) as Hne
    by (vm_compute; discriminate).
  split_and!; [done..|].
  apply (hierholzer_component graph_triangles "a" Hok eq_refl Hne).
Defined.

(** ** Exceptions on undirected stores *)

Lemma tour_step_undirected adj cur :
  symmetric adj → loops_paired adj → is_Some (adj !! cur) →
  (∃ nxt adj', tour_step cur adj = Ok (nxt, adj')) ∨
  tour_step cur adj = Raise IndexError.
Proof.
  intros Hs Hl [l Hcur].
  destruct l as [|nxt l _] using rev_ind; [right; by apply tour_step_stuck|].
  left. exists nxt. apply (tour_step_progress _ _ l); [done|].
  apply occ_pos. destruct (decide (cur = nxt)) as [<-|Hne].
  - rewrite nbrs_insert_eq. destruct (Hl cur) as [k Hk].
    rewrite (nbrs_lookup _ _ _ Hcur), occ_app, occ_cons, occ_nil in Hk.
    rewrite decide_True in Hk by done. lia.
  - rewrite nbrs_insert_ne by done. rewrite <- Hs.
    rewrite (nbrs_lookup _ _ _ Hcur), occ_app, occ_cons.
    rewrite decide_True by done. lia.
Qed.

Lemma tour_step_Ok_key cur adj nxt adj' :
  tour_step cur adj = Ok (nxt, adj') → is_Some (adj' !! nxt).
Proof.
  intros Hc%tour_step_Ok. apply (consumes_dom _ _ _ Hc).
  apply (consumes_keys _ _ _ Hc cur nxt). left.
Qed.

Lemma tour_loop_undirected fuel s nxt t adj e :
  symmetric adj → loops_paired adj → is_Some (adj !! nxt) →
  tour_loop fuel s nxt t adj = Raise e → e = IndexError.
Proof.
  revert nxt t adj. induction fuel as [|fuel IH]; intros nxt t adj Hs Hl Hk.
  all: destruct (decide (nxt = s)) as [->|Hne]; [by rewrite tour_loop_done|].
  - by rewrite tour_loop_0.
  - rewrite tour_loop_S by done.
    destruct (tour_step_undirected adj nxt Hs Hl Hk)
      as [(nxt' & adj1 & Hstep)| ->]; [|by intros [= <-]].
    rewrite Hstep. pose proof (tour_step_Ok _ _ _ _ Hstep) as Hc.
    apply IH.
    + by apply (consumes_symmetric _ _ _ Hc).
    + by apply (consumes_loops _ _ _ Hc).
    + by eapply tour_step_Ok_key.
Qed.

Lemma hierholzer_tour_undirected s adj e :
  symmetric adj → loops_paired adj → is_Some (adj !! s) →
  hierholzer_tour s adj = Raise e → e = IndexError.
Proof.
  intros Hs Hl Hk. rewrite hierholzer_tour_unfold.
  destruct (tour_step_undirected adj s Hs Hl Hk)
    as [(nxt & adj1 & Hstep)| ->]; [|by intros [= <-]].
  rewrite Hstep. pose proof (tour_step_Ok _ _ _ _ Hstep) as Hc.
  apply tour_loop_undirected.
  - by apply (consumes_symmetric _ _ _ Hc).
  - by apply (consumes_loops _ _ _ Hc).
  - by eapply tour_step_Ok_key.
Qed.

Lemma scan_undirected fuel i t adj e :
  symmetric adj → loops_paired adj →
  (∀ v, v ∈ t → is_Some (adj !! v)) →
  scan fuel i t adj = Raise e → e = IndexError.
Proof.
  revert i t adj. induction fuel as [|fuel IH]; intros i t adj Hs Hl Hdom.
  all: destruct (t !! i) as [v|] eqn:Hv; [|by rewrite scan_end].
  - by rewrite (scan_0 _ _ v).
  - rewrite (scan_S _ _ _ v) by done.
    destruct (Hdom v) as [l Hlv]; [by eapply list_elem_of_lookup_2|].
    rewrite Hlv. case_decide as Hlen; [|by apply IH].
    destruct (hierholzer_tour v adj) as [[v_tour adj1]|e'|] eqn:Hsub.
    + pose proof (hierholzer_tour_Ok _ _ _ _ Hsub) as (Hc & Hh & Hla & Hlen2).
      apply IH.
      * by apply (consumes_symmetric _ _ _ Hc).
      * by apply (consumes_loops _ _ _ Hc).
      * intros w Hw. apply (consumes_dom _ _ _ Hc).
        apply (elem_of_splice _ v) in Hw as [Hw|Hw]; [by apply Hdom| |done..].
        destruct (elem_of_steps_from _ _ Hw Hlen2) as [b [Hb|Hb]];
          by destruct (consumes_keys _ _ _ Hc _ _ Hb).
    + intros [= <-]. apply (hierholzer_tour_undirected v adj); eauto.
    + done.
Qed.

Lemma hierholzer_body_undirected vs adj e :
  symmetric adj → loops_paired adj →
  (∀ v0, vs !! 0 = Some v0 → is_Some (adj !! v0)) →
  hierholzer_body vs adj = Raise e → e = IndexError.
Proof.
  intros Hs Hl Hkey.
  destruct (vs !! 0) as [v0|] eqn:Hv0;
    [|unfold hierholzer_body; rewrite Hv0; by intros [= <-]].
  rewrite (hierholzer_body_unfold _ v0) by done.
  destruct (hierholzer_tour v0 adj) as [[t0 adj1]|e'|] eqn:Hsub.
  - pose proof (hierholzer_tour_Ok _ _ _ _ Hsub) as (Hc & Hh & Hla & Hlen).
    apply scan_undirected.
    + by apply (consumes_symmetric _ _ _ Hc).
    + by apply (consumes_loops _ _ _ Hc).
    + intros w Hw. apply (consumes_dom _ _ _ Hc).
      destruct (elem_of_steps_from _ _ Hw Hlen) as [b [Hb|Hb]];
        by destruct (consumes_keys _ _ _ Hc _ _ Hb).
  - intros [= <-]. apply (hierholzer_tour_undirected v0 adj); eauto.
  - done.
Qed.

(** X4: on an undirected store (every edge entered at both ends, a loop
    twice) the removal of the opposite entry never fails and no key is
    missing: the only exception [hierholzer_tour] and [hierholzer] can
    raise is the [IndexError] of a pop from an empty list (a dead end at
    a vertex of odd degree, or no vertex or edge to start from). *)
Theorem undirected_raises_index_error_only
    (adj : gmap string (list string)) :
  symmetric adj → loops_paired adj →
  (∀ s e, is_Some (adj !! s) →
          hierholzer_tour s adj = Raise e → e = IndexError) ∧
  (∀ vs e, (∀ v0, vs !! 0 = Some v0 → is_Some (adj !! v0)) →
           hierholzer_body vs adj = Raise e → e = IndexError).
Proof.
  intros Hs Hl. split.
  - intros s e. by apply hierholzer_tour_undirected.
  - intros vs e. by apply hierholzer_body_undirected.
Qed.

Lemma undirected_raises_index_error_only_witness :
  symmetric (adj_list graph_path) ∧ loops_paired (adj_list graph_path) ∧
  hierholzer_tour "a" (adj_list graph_path) = Raise IndexError ∧
  (∀ s e, is_Some (adj_list graph_path !! s) →
          hierholzer_tour s (adj_list graph_path) = Raise e →
          e = IndexError) ∧
  (∀ vs e, (∀ v0, vs !! 0 = Some v0 → is_Some (adj_list graph_path !! v0)) →
           hierholzer_body vs (adj_list graph_path) = Raise e →
           e = IndexError).
Proof.
  assert (symmetric (adj_list graph_path)) as Hs
    by (apply check_symmetric_sound; vm_compute; reflexivity).
  assert (loops_paired (adj_list graph_path)) as Hl
    by (apply check_loops_sound; vm_compute; reflexivity).
  split_and!; [done|done|vm_compute; reflexivity|..];
    apply (undirected_raises_index_error_only (adj_list graph_path) Hs Hl).
Defined.

(** ** The walk on any store *)

Lemma tour_step_last cur adj nxt adj' :
  tour_step cur adj = Ok (nxt, adj') → last (nbrs adj cur) = Some nxt.
Proof.
  rewrite tour_step_unfold.
  destruct (adj !! cur) as [l|] eqn:Hcur; [|done].
  destruct (list_pop l) as [[nxt' l']|] eqn:Hpop; [|done].
  apply list_pop_Some in Hpop as ->.
  destruct (<[cur := l']> adj !! nxt') as [k|]; [|done].
  destruct (list_remove cur k); [|done]. intros [= -> _].
  by rewrite (nbrs_lookup _ _ _ Hcur), last_snoc.
Qed.

Lemma tour_loop_first_return fuel s nxt t adj t' adj' :
  tour_loop fuel s nxt t adj = Ok (t', adj') →
  ∃ r, t' = t ++ r ∧
       (nxt = s ∧ r = [] ∨ nxt ≠ s ∧ ∃ r', r = r' ++ [s] ∧ s ∉ r').
Proof.
  revert nxt t adj. induction fuel as [|fuel IH]; intros nxt t adj Hrun.
  all: destruct (decide (nxt = s)) as [->|Hne].
  1,3: rewrite tour_loop_done in Hrun; injection Hrun as <- <-; exists [];
    split; [by rewrite (right_id [] (++))|by left].
  - by rewrite tour_loop_0 in Hrun.
  - rewrite tour_loop_S in Hrun by done.
    destruct (tour_step nxt adj) as [[nxt' adj1]| |] eqn:Hstep; [|done..].
    destruct (IH _ _ _ Hrun) as (r & -> & Hr).
    exists (nxt' :: r). split; [by rewrite <- (assoc (++))|]. right.
    split; [done|].
    destruct Hr as [[-> ->]|(Hne' & r' & -> & Hnin)].
    + exists []. split; [done|]. by inversion 1.
    + exists (nxt' :: r'). split; [done|].
      intros [?|?]%elem_of_cons; [congruence|done].
Qed.

(** X5: whatever the store, a walk that [hierholzer_tour] returns leaves
    [s] by the last entry of the list of [s], and is over at its first
    return to [s]: [s] is its first and its last element and no other;
    its vertices are keys of the store, no key is added or removed, and
    no list grows. *)
Theorem hierholzer_tour_first_return
    (adj : gmap string (list string)) (s : string)
    (tour : list string) (adj' : gmap string (list string)) :
  hierholzer_tour s adj = Ok (tour, adj') →
  (∃ mid, tour = s :: mid ++ [s] ∧ s ∉ mid) ∧
  tour !! 1 = last (nbrs adj s) ∧
  (∀ v, v ∈ tour → is_Some (adj !! v)) ∧
  (∀ u, is_Some (adj' !! u) ↔ is_Some (adj !! u)) ∧
  (∀ u, length (nbrs adj' u) ≤ length (nbrs adj u)).
Proof.
  intros Hrun.
  pose proof (hierholzer_tour_Ok _ _ _ _ Hrun) as (Hc & Hh & Hl & Hlen).
  rewrite hierholzer_tour_unfold in Hrun.
  destruct (tour_step s adj) as [[nxt adj1]| |] eqn:Hstep; [|done..].
  pose proof (tour_step_last _ _ _ _ Hstep) as Hlast.
  apply tour_loop_first_return in Hrun as (r & -> & Hr).
  split_and!.
  - destruct Hr as [[-> ->]|(Hne & r' & -> & Hnin)].
    + exists []. split; [done|]. by inversion 1.
    + exists (nxt :: r'). split; [done|].
      intros [?|?]%elem_of_cons; [congruence|done].
  - by rewrite Hlast.
  - intros v Hv.
    destruct (elem_of_steps_from _ _ Hv Hlen) as [b [Hb|Hb]];
      by destruct (consumes_keys _ _ _ Hc _ _ Hb).
  - apply (consumes_dom _ _ _ Hc).
  - intros u. rewrite (consumes_nbrs _ _ _ Hc u), length_app. lia.
Qed.

Lemma hierholzer_tour_first_return_witness :
  hierholzer_tour "a" (adj_list graph_bowtie) = Ok (tour_aeda, store_bowtie_rest) ∧
  (∃ mid, tour_aeda = "a"%string :: mid ++ ["a"%string] ∧ "a"%string ∉ mid) ∧
  tour_aeda !! 1 = last (nbrs (adj_list graph_bowtie) "a") ∧
  (∀ v, v ∈ tour_aeda → is_Some (adj_list graph_bowtie !! v)) ∧
  (∀ u, is_Some (store_bowtie_rest !! u) ↔ is_Some (adj_list graph_bowtie !! u)) ∧
  (∀ u, length (nbrs store_bowtie_rest u)
        ≤ length (nbrs (adj_list graph_bowtie) u)).
Proof.
  assert (hierholzer_tour "a" (adj_list graph_bowtie)
          = Ok (tour_aeda, store_bowtie_rest)) as H
    by (vm_compute; reflexivity).
  split; [done|].
  apply (hierholzer_tour_first_return (adj_list graph_bowtie) "a" _ _ H).
Defined.

(** ** The insertion loop and the scan on any input *)

Lemma splice_fold v_index v rest tour :
  splice v_index (v :: rest) tour
  = fold_left (λ t u, py_insert (v_index + 1) u t) (reverse rest) tour.
Proof.
  unfold splice.
  rewrite reverse_cons, enumerate_snoc, fold_left_app. simpl.
  rewrite length_reverse, Nat.sub_0_r, decide_True by done.
  rewrite fold_skip_index.
  2:{ intros p Hp%enumerate_fst_lt. rewrite length_reverse in Hp. lia. }
  by rewrite enumerate_snd.
Qed.

Lemma py_insert_perm {A} i (x : A) l : py_insert i x l ≡ₚ x :: l.
Proof.
  unfold py_insert. rewrite <- Permutation_middle. by rewrite take_drop.
Qed.

Lemma py_insert_sublist {A} i (x : A) l : l `sublist_of` py_insert i x l.
Proof.
  unfold py_insert. rewrite <- (take_drop i l) at 1.
  apply sublist_app; [done|]. by apply sublist_cons.
Qed.

Lemma fold_py_insert_perm p (l t : list string) :
  fold_left (λ t u, py_insert p u t) l t ≡ₚ t ++ l ∧
  t `sublist_of` fold_left (λ t u, py_insert p u t) l t.
Proof.
  revert t. induction l as [|u l IH]; intros t; simpl.
  { by rewrite (right_id [] (++)). }
  destruct (IH (py_insert p u t)) as [Hp Hs]. split.
  - rewrite Hp, py_insert_perm. by rewrite <- Permutation_middle.
  - etrans; [apply (py_insert_sublist p u)|done].
Qed.

Lemma splice_sublist i v_tour tour : tour `sublist_of` splice i v_tour tour.
Proof.
  destruct v_tour as [|v rest]; [by rewrite splice_nil|].
  rewrite splice_fold. apply fold_py_insert_perm.
Qed.

(** X6: the insertion loop only inserts.  For every index and every
    sub-tour, also ones that do not start at the vertex at that index, the
    result has the elements of the master tour and of the sub-tour without
    its first element and no others, and the master tour is still there
    in its order; for an index inside the tour the new elements stand in
    one block right after that index. *)
Theorem splice_only_inserts (v_index : nat) (v_tour tour : list string) :
  splice v_index v_tour tour ≡ₚ tour ++ tail v_tour ∧
  tour `sublist_of` splice v_index v_tour tour ∧
  length (splice v_index v_tour tour) = length tour + (length v_tour - 1) ∧
  (v_index < length tour →
   splice v_index v_tour tour
   = take (S v_index) tour ++ tail v_tour ++ drop (S v_index) tour).
Proof.
  destruct v_tour as [|v rest].
  { rewrite splice_nil. simpl. rewrite !(right_id [] (++)), Nat.add_0_r.
    split_and!; [done..|]. intros _. by rewrite take_drop. }
  destruct (fold_py_insert_perm (v_index + 1) (reverse rest) tour) as [Hp Hs].
  rewrite <- (splice_fold _ v) in Hp, Hs. split_and!.
  - rewrite Hp. simpl. by rewrite reverse_Permutation.
  - done.
  - rewrite Hp, length_app, length_reverse. simpl. lia.
  - intros Hlt. by apply splice_cons.
Qed.

Lemma scan_prefix fuel i t adj t' adj' :
  scan fuel i t adj = Ok (t', adj') →
  take i t' = take i t ∧ t `sublist_of` t'.
Proof.
  revert i t adj. induction fuel as [|fuel IH]; intros i t adj Hrun.
  all: destruct (t !! i) as [v|] eqn:Hv.
  2,4: rewrite scan_end in Hrun by done; by injection Hrun as <- <-.
  - by rewrite (scan_0 _ _ v) in Hrun.
  - assert (∀ t1, take (S i) t' = take (S i) t1 → take i t' = take i t1) as Hi.
    { intros t1 H1.
      assert (∀ l : list string, take i l = take i (take (S i) l)) as Hm.
      { intros l. rewrite take_take. f_equal. lia. }
      by rewrite (Hm t'), (Hm t1), H1. }
    rewrite (scan_S _ _ _ v) in Hrun by done.
    destruct (adj !! v) as [l|]; [|done].
    case_decide.
    + destruct (hierholzer_tour v adj) as [[v_tour adj1]| |] eqn:Hsub; [|done..].
      apply hierholzer_tour_Ok in Hsub as (_ & Hh & _ & _).
      destruct (IH _ _ _ Hrun) as [Ht Hs].
      destruct v_tour as [|v' rest]; [done|].
      pose proof (lookup_lt_Some _ _ _ Hv) as Hlt. split.
      * rewrite (Hi _ Ht), splice_cons by done.
        rewrite take_app_le by (rewrite length_take; lia).
        rewrite take_take. f_equal. lia.
      * etrans; [|done]. apply splice_sublist.
    + destruct (IH _ _ _ Hrun) as [Ht Hs]. split; [by apply Hi|done].
Qed.

(** X7: the scan changes the master tour only behind its index.  Whatever
    the store, when the scan from index [i] returns, the elements before
    [i] are as they were, the tour it started from is still there in its
    order, and the tour has grown by one element for every two entries
    taken out of the store. *)
Theorem scan_keeps_scanned_prefix (fuel i : nat) (t : list string)
    (adj : gmap string (list string)) (t' : list string)
    (adj' : gmap string (list string)) :
  scan fuel i t adj = Ok (t', adj') →
  take i t' = take i t ∧
  t `sublist_of` t' ∧
  head t' = head t ∧ last t' = last t ∧
  adj_size adj = 2 * (length t' - length t) + adj_size adj'.
Proof.
  intros Hrun. destruct (scan_prefix _ _ _ _ _ _ Hrun) as [Ht Hs].
  apply scan_Ok in Hrun as (es & Hc & _ & Hh & Hl & Hlen & _).
  split_and!; [done..|]. rewrite (consumes_size _ _ _ Hc). lia.
Qed.

Lemma scan_keeps_scanned_prefix_witness :
  scan 8 0 tour_aeda store_bowtie_rest = Ok (tour_bowtie, store_bowtie_end) ∧
  take 0 tour_bowtie = take 0 tour_aeda ∧
  tour_aeda `sublist_of` tour_bowtie ∧
  head tour_bowtie = head tour_aeda ∧ last tour_bowtie = last tour_aeda ∧
  adj_size store_bowtie_rest
  = 2 * (length tour_bowtie - length tour_aeda) + adj_size store_bowtie_end.
Proof.
  assert (scan 8 0 tour_aeda store_bowtie_rest
          = Ok (tour_bowtie, store_bowtie_end)) as H
    by (vm_compute; reflexivity).
  split; [done|].
  apply (scan_keeps_scanned_prefix 8 0 tour_aeda store_bowtie_rest _ _ H).
Defined.

(** ** The tour and the working copy of a valid graph *)

(** X8: on a connected graph with even degrees and an edge the working
    copy is used up: when [hierholzer] returns, the copy has the keys of
    the graph, each with the empty list. *)
Theorem hierholzer_uses_up_copy (g : Graph) :
  euler_graph g → has_edge g →
  ∃ tour adj', hierholzer_run g = Ok (tour, adj') ∧
               adj' = (λ _, []) <$> adj_list g ∧ adj_size adj' = 0.
Proof.
  intros Hg He.
  destruct (hierholzer_run_correct g Hg He)
    as (v0 & tour & adj' & _ & Hrun & Hc & _ & _ & _ & Hnil).
  exists tour, adj'. split_and!; [done| |by apply adj_size_empty].
  apply map_eq. intros u. rewrite lookup_fmap.
  pose proof (consumes_dom _ _ _ Hc u) as Hd. specialize (Hnil u).
  unfold nbrs in Hnil.
  destruct (adj' !! u) as [l|], (adj_list g !! u) as [l0|]; simpl in *.
  - by subst.
  - destruct Hd as [[? ?] _]; [eauto|done].
  - destruct Hd as [_ [? ?]]; [eauto|done].
  - done.
Qed.

Lemma hierholzer_uses_up_copy_witness :
  euler_graph graph5 ∧ has_edge graph5 ∧
  ∃ tour adj', hierholzer_run graph5 = Ok (tour, adj') ∧
               adj' = (λ _, []) <$> adj_list graph5 ∧ adj_size adj' = 0.
Proof.
  assert (euler_graph graph5) as Hg
    by (apply check_graph_sound; vm_compute; reflexivity).
  assert (has_edge graph5) as He
    by (exists "a"%string; vm_compute; discriminate).
  split_and!; [done..|]. apply (hierholzer_uses_up_copy graph5 Hg He).
Defined.

Lemma length_used u es : length (used u es) = occ u (es.*1) + occ u (es.*2).
Proof.
  induction es as [|[a b] es IH]; [done|].
  change (used u ((a, b) :: es)) with (half u (a, b) ++ used u es).
  rewrite length_app, IH. csimpl. rewrite !occ_cons. unfold half. simpl.
  repeat case_decide; simpl; lia.
Qed.

Lemma steps_fst t : (steps t).*1 = removelast t.
Proof.
  induction t as [|x [|y t] IH]; [done..|].
  by rewrite steps_cons2, fmap_cons, IH.
Qed.

Lemma steps_snd t : (steps t).*2 = tail t.
Proof.
  induction t as [|x [|y t] IH]; [done..|].
  by rewrite steps_cons2, fmap_cons, IH.
Qed.

Lemma occ_closed (u : string) (t : list string) :
  head t = last t → occ u (removelast t) = occ u (tail t).
Proof.
  destruct t as [|x t]; [done|].
  destruct t as [|y t _] using rev_ind; [done|].
  rewrite app_comm_cons, last_snoc, removelast_last. simpl.
  intros [= ->]. rewrite occ_cons, occ_app, occ_cons, occ_nil. lia.
Qed.

(** X9: on a connected graph with even degrees and an edge the tour
    visits the vertices of the graph and nothing else, and it enters every
    vertex half as often as the vertex has edges: the number of times [u]
    occurs after the first element of the tour is half the length of the
    adjacency list of [u]. *)
Theorem hierholzer_visits (g : Graph) :
  euler_graph g → has_edge g →
  ∃ tour, hierholzer g = Ok tour ∧
          (∀ v, v ∈ tour ↔ v ∈ vertices g) ∧
          (∀ u, length (nbrs (adj_list g) u) = 2 * occ u (tail tour)).
Proof.
  intros Hg He.
  destruct (hierholzer_run_correct g Hg He)
    as (v0 & tour & adj' & Hv0 & Hrun & Hc & Hh & Hl & Hlen & Hnil).
  exists tour. split_and!; [by apply (hierholzer_of_run _ _ adj')| |].
  - intros v. split.
    + intros Hv. apply (eg_vertices _ Hg).
      destruct (elem_of_steps_from _ _ Hv Hlen) as [b [Hb|Hb]];
        by destruct (consumes_keys _ _ _ Hc _ _ Hb).
    + intros Hv. destruct (nbrs (adj_list g) v) as [|w l] eqn:Hn.
      * assert (v0 ∈ vertices g) as Hv0' by (by eapply list_elem_of_lookup_2).
        destruct (rtc_inv _ _ (eg_connected _ Hg v v0 Hv Hv0'))
          as [->|(w & Hadj & _)].
        -- apply head_Some_elem_of. by rewrite Hh.
        -- unfold adjacent in Hadj. rewrite Hn in Hadj. by inversion Hadj.
      * assert (w ∈ used v (steps tour)) as Hw.
        { pose proof (consumes_nbrs _ _ _ Hc v) as Hp.
          rewrite Hn, (Hnil v), (right_id [] (++)) in Hp.
          rewrite <- Hp. left. }
        apply elem_of_used in Hw as [H|H];
          by apply elem_of_steps in H as [? ?].
  - intros u. pose proof (consumes_nbrs _ _ _ Hc u) as Hp.
    rewrite (Hnil u), (right_id [] (++)) in Hp.
    rewrite Hp, length_used, steps_fst, steps_snd.
    rewrite occ_closed by (by rewrite Hh, Hl). lia.
Qed.

Lemma hierholzer_visits_witness :
  euler_graph graph5 ∧ has_edge graph5 ∧
  ∃ tour, hierholzer graph5 = Ok tour ∧
          (∀ v, v ∈ tour ↔ v ∈ vertices graph5) ∧
          (∀ u, length (nbrs (adj_list graph5) u) = 2 * occ u (tail tour)).
Proof.
  assert (euler_graph graph5) as Hg
    by (apply check_graph_sound; vm_compute; reflexivity).
  assert (has_edge graph5) as He
    by (exists "a"%string; vm_compute; discriminate).
  split_and!; [done..|]. apply (hierholzer_visits graph5 Hg He).
Defined.

(** ** Malformed graphs *)

(** X10: what [hierholzer] does on a graph it cannot start on.  An empty
    vertex list, and a first vertex with an empty adjacency list, give
    [IndexError]; a first vertex that is not a key of the adjacency gives
    [KeyError]; a first edge to a label that is not a key gives [KeyError]
    too, and a first edge that is not entered at its other end gives
    [ValueError]. *)
Theorem hierholzer_malformed_start (g : Graph) :
  (vertices g = [] → hierholzer g = Raise IndexError) ∧
  (∀ v0, vertices g !! 0 = Some v0 →
     (adj_list g !! v0 = None → hierholzer g = Raise KeyError) ∧
     (adj_list g !! v0 = Some [] → hierholzer g = Raise IndexError) ∧
     (∀ l n, adj_list g !! v0 = Some (l ++ [n]) → n ≠ v0 →
        (adj_list g !! n = None → hierholzer g = Raise KeyError) ∧
        (∀ k, adj_list g !! n = Some k → v0 ∉ k →
              hierholzer g = Raise ValueError))).
Proof.
  split.
  - intros Hv. unfold hierholzer, hierholzer_run, hierholzer_body.
    by rewrite Hv.
  - intros v0 Hv0.
    assert (∀ e, tour_step v0 (adj_list g) = Raise e → hierholzer g = Raise e)
      as Hfirst.
    { intros e He. unfold hierholzer, hierholzer_run, deepcopy.
      by rewrite (hierholzer_body_unfold _ v0), hierholzer_tour_unfold, He. }
    split_and!.
    + intros Hk. by apply Hfirst, tour_step_no_key.
    + intros Hk. by apply Hfirst, tour_step_stuck.
    + intros l n Hk Hne. split.
      * intros Hn. apply Hfirst. rewrite tour_step_unfold, Hk, list_pop_snoc.
        by rewrite lookup_insert_ne, Hn.
      * intros k Hn Hnin. apply Hfirst.
        rewrite tour_step_unfold, Hk, list_pop_snoc.
        rewrite lookup_insert_ne, Hn by done.
        by rewrite (proj2 (list_remove_None v0 k) Hnin).
Qed.

(** ** The walk on the object store *)

Section keeps_walk.
Context (I : gmap positive obj → Prop) (P : positive → Prop) (d : positive).
Hypothesis Hget : ∀ k, keeps I (h_getitem d k) P.
Hypothesis Hpop : ∀ l, P l → keeps I (h_pop l) (λ _, True).
Hypothesis Hrem : ∀ l x, P l → keeps I (h_remove l x) (λ _, True).

Lemma walk_keeps_tour_step cur : keeps I (h_tour_step d cur) (λ _, True).
Proof.
  unfold h_tour_step, h_adj_pop, h_adj_remove.
  eapply keeps_bind.
  { eapply keeps_bind; [apply Hget|]. intros l Hl. by apply Hpop. }
  intros nxt _. eapply keeps_bind.
  { eapply keeps_bind; [apply Hget|]. intros l Hl. by apply Hrem. }
  intros _ _. by apply keeps_ret.
Qed.

Lemma walk_keeps_tour_loop fuel s nxt t :
  keeps I (h_tour_loop fuel d s nxt t) (λ _, True).
Proof.
  revert nxt t. induction fuel as [|fuel IH]; intros nxt t; simpl;
    case_decide; try by apply keeps_ret.
  - apply keeps_out_of_fuel.
  - eapply keeps_bind; [apply walk_keeps_tour_step|]. intros nxt' _. apply IH.
Qed.

Lemma walk_keeps_hierholzer_tour s :
  keeps I (h_hierholzer_tour d s) (λ _, True).
Proof.
  unfold h_hierholzer_tour.
  eapply keeps_bind; [apply walk_keeps_tour_step|]. intros nxt _.
  eapply keeps_bind; [apply keeps_get_size|]. intros fuel _.
  apply walk_keeps_tour_loop.
Qed.

End keeps_walk.

Lemma in_place_refl h d m : dict_at h d = Some m → in_place h d m h.
Proof. intros Hd. by split; [|split]. Qed.

Lemma in_place_store h d m h' l xs xs' :
  in_place h d m h' → (∃ k, m !! k = Some l) → list_at h' l = Some xs →
  in_place h d m (<[l := OList xs']> h').
Proof.
  intros (Hdom & Hd & Hrest) [k Hk] Hl. split_and!.
  - rewrite <- Hdom. apply dom_insert_lookup_L.
    unfold list_at in Hl. destruct (h' !! l); [eauto|done].
  - rewrite dict_at_insert_ne; [done|]. by eapply list_dict_ne.
  - intros l' Hl'. rewrite lookup_insert_ne; [by apply Hrest|].
    intros ->. by apply (Hl' k).
Qed.

Lemma in_place_getitem h d m k :
  keeps (in_place h d m) (h_getitem d k) (λ l, ∃ k, m !! k = Some l).
Proof.
  intros h' HI. pose proof HI as (_ & Hd & _).
  unfold h_getitem, h_dict, mbind, HM_bind. rewrite Hd.
  destruct (m !! k) as [l|] eqn:Hk; simpl.
  - split; [done|]. intros a [= <-]. eauto.
  - split; [done|]. by intros a [=].
Qed.

Lemma in_place_pop h d m l :
  (∃ k, m !! k = Some l) → keeps (in_place h d m) (h_pop l) (λ _, True).
Proof.
  intros Hl h' HI. unfold h_pop, h_list. rewrite hbind_unfold.
  destruct (list_at h' l) as [xs|] eqn:Hxs; [|by split].
  destruct (list_pop xs) as [[x xs']|]; [|by split].
  split; [|done]. by apply (in_place_store _ _ _ _ _ xs).
Qed.

Lemma in_place_remove h d m l x :
  (∃ k, m !! k = Some l) → keeps (in_place h d m) (h_remove l x) (λ _, True).
Proof.
  intros Hl h' HI. unfold h_remove, h_list. rewrite hbind_unfold.
  destruct (list_at h' l) as [xs|] eqn:Hxs; [|by split].
  destruct (list_remove x xs) as [xs'|]; [|by split].
  split; [|done]. by apply (in_place_store _ _ _ _ _ xs).
Qed.

(** X11: [hierholzer_tour] works in place on the dict it is given: it
    creates no object, it leaves the dict object and every object that is
    not a list of the dict as they are, and after it the same dict holds
    the store without the entries of the walk; the caller's adjacency is
    what gets consumed. *)
Theorem hierholzer_tour_in_place (h : gmap positive obj) (d : positive)
    (m : gmap string positive) (s : string) :
  dict_at h d = Some m →
  in_place h d m (h_hierholzer_tour d s h).2 ∧
  ∀ adj, holds_adj h d adj →
    match hierholzer_tour s adj with
    | Ok (tour, adj') =>
        (h_hierholzer_tour d s h).1 = Ok tour ∧
        holds_adj (h_hierholzer_tour d s h).2 d adj'
    | Raise e => (h_hierholzer_tour d s h).1 = Raise e
    | OutOfFuel => False
    end.
Proof.
  intros Hd. split.
  - apply (walk_keeps_hierholzer_tour (in_place h d m)
             (λ l, ∃ k, m !! k = Some l) d).
    + apply in_place_getitem.
    + apply in_place_pop.
    + apply in_place_remove.
    + by apply in_place_refl.
  - intros adj Hh. pose proof (sim_hierholzer_tour d s h adj Hh) as Hsim.
    destruct (hierholzer_tour s adj) as [[tour adj']|e|] eqn:Hrun.
    + by destruct Hsim as (h' & -> & ?).
    + by destruct Hsim as (h' & ->).
    + by apply hierholzer_tour_fuel in Hrun.
Qed.

Lemma hierholzer_tour_in_place_witness :
  dict_at heap3 2 = Some dict3 ∧
  in_place heap3 2 dict3 (h_hierholzer_tour 2 "a" heap3).2 ∧
  ∀ adj, holds_adj heap3 2 adj →
    match hierholzer_tour "a" adj with
    | Ok (tour, adj') =>
        (h_hierholzer_tour 2 "a" heap3).1 = Ok tour ∧
        holds_adj (h_hierholzer_tour 2 "a" heap3).2 2 adj'
    | Raise e => (h_hierholzer_tour 2 "a" heap3).1 = Raise e
    | OutOfFuel => False
    end.
Proof.
  assert (dict_at heap3 2 = Some dict3) as H by (vm_compute; reflexivity).
  split; [done|]. apply (hierholzer_tour_in_place heap3 2 dict3 "a" H).
Defined.

(** ** Vertices of odd degree *)

(** Whatever the graph, a tour that is returned contains every vertex
    that can be reached from the first one, and has used up the list of
    every vertex it contains, two entries for each time it enters it. *)
Lemma hierholzer_Ok_visits g tour :
  hierholzer g = Ok tour →
  ∃ v0, vertices g !! 0 = Some v0 ∧
        (∀ w, rtc (adjacent (adj_list g)) v0 w → w ∈ tour) ∧
        ∀ u, u ∈ tour → length (nbrs (adj_list g) u) = 2 * occ u (tail tour).
Proof.
  intros [adj' Hrun]%hierholzer_Ok_run.
  apply hierholzer_run_Ok in Hrun as (v0 & Hv0 & Hc & Hh & Hl & Hlen & Hdone).
  exists v0. split_and!; [done| |].
  - apply rtc_ind_r.
    + apply head_Some_elem_of. by rewrite Hh.
    + intros y z _ Hrt IH. unfold adjacent in Hrt.
      rewrite (consumes_nbrs _ _ _ Hc y), (Hdone y IH) in Hrt.
      rewrite (right_id [] (++)) in Hrt.
      apply elem_of_used in Hrt as [H|H]; by apply elem_of_steps in H as [? ?].
  - intros u Hu. pose proof (consumes_nbrs _ _ _ Hc u) as Hp.
    rewrite (Hdone u Hu), (right_id [] (++)) in Hp.
    rewrite Hp, length_used, steps_fst, steps_snd.
    rewrite occ_closed by (by rewrite Hh, Hl). lia.
Qed.

(** X12: a vertex of odd degree is found out.  On an undirected graph in
    which a vertex of odd degree can be reached from the first vertex,
    [hierholzer] returns no tour: it raises [IndexError], at the pop from
    the list of a vertex the walk cannot leave. *)
Theorem hierholzer_odd_degree (g : Graph) (v0 w : string) :
  symmetric (adj_list g) → loops_paired (adj_list g) →
  vertices g !! 0 = Some v0 → is_Some (adj_list g !! v0) →
  rtc (adjacent (adj_list g)) v0 w →
  Nat.Odd (length (nbrs (adj_list g) w)) →
  hierholzer g = Raise IndexError.
Proof.
  intros Hs Hl Hv0 Hk Hreach Hodd.
  destruct (hierholzer g) as [tour|e|] eqn:Hrun.
  - destruct (hierholzer_Ok_visits g tour Hrun) as (v0' & Hv0' & Hvis & Hdeg).
    assert (v0' = v0) as -> by congruence.
    specialize (Hdeg w (Hvis w Hreach)). destruct Hodd as [k Hk']. lia.
  - f_equal. revert Hrun. rewrite hierholzer_unfold.
    unfold hierholzer_run, deepcopy.
    destruct (hierholzer_body (vertices g) (adj_list g))
      as [[t adj']|e'|] eqn:Hbody; [done| |done].
    intros [= ->].
    apply (hierholzer_body_undirected (vertices g) (adj_list g)); [done..| |done].
    intros v Hv. congruence.
  - by apply hierholzer_terminates in Hrun.
Qed.

Lemma hierholzer_odd_degree_witness :
  symmetric (adj_list graph_path) ∧ loops_paired (adj_list graph_path) ∧
  vertices graph_path !! 0 = Some "a"%string ∧
  is_Some (adj_list graph_path !! "a"%string) ∧
  rtc (adjacent (adj_list graph_path)) "a"%string "b"%string ∧
  Nat.Odd (length (nbrs (adj_list graph_path) "b")) ∧
  hierholzer graph_path = Raise IndexError.
Proof.
  assert (symmetric (adj_list graph_path)) as Hs
    by (apply check_symmetric_sound; vm_compute; reflexivity).
  assert (loops_paired (adj_list graph_path)) as Hl
    by (apply check_loops_sound; vm_compute; reflexivity).
  assert (is_Some (adj_list graph_path !! "a"%string)) as Hk
    by (vm_compute; eauto).
  assert (rtc (adjacent (adj_list graph_path)) "a"%string "b"%string) as Hr
    by (apply (reach_sound _ 1); vm_compute; right; left).
  assert (Nat.Odd (length (nbrs (adj_list graph_path) "b"))) as Ho
    by (exists 0; vm_compute; reflexivity).
  split_and!; [done..|].
  apply (hierholzer_odd_degree graph_path "a" "b" Hs Hl eq_refl Hk Hr Ho).
Defined.
